(** * linear-mcp-server: the rate limiter, the query parser and the tool
      handlers of [src/index.js]

    A shallow embedding of the JavaScript source.  Part I holds the
    definitions, in the order of the source; Part II holds the statements
    proved about them. *)

From Stdlib Require Import String Ascii.
From Stdlib Require Import ZArith NArith List Bool Lia Sorted.
From Stdlib Require Import DecimalString.
Import ListNotations.

Open Scope Z_scope.

(* ===================================================================== *)
(** * Part I: the program                                                 *)
(* ===================================================================== *)

(** ** JavaScript values *)

(** A JavaScript string is a sequence of UTF-16 code units. *)
Definition code_unit := N.
Definition jsstring := list code_unit.

(** A string literal of the source (all of them are ASCII). *)
Definition lit (s : string) : jsstring :=
  map N_of_ascii (list_ascii_of_string s).
Arguments lit s%_string.

(** [===] on two strings. *)
Fixpoint str_eqb (a b : jsstring) : bool :=
  match a, b with
  | [], [] => true
  | x :: a', y :: b' => N.eqb x y && str_eqb a' b'
  | _, _ => false
  end.

(** Exceptions the program throws or receives.  [TypeError] is raised by
    the engine (its message is the engine's), [LinearError] is the class
    of the upstream SDK that [handleLinearError] tests with
    [instanceof]. *)
Inductive exn :=
| Error (message : jsstring)
| TypeError (message : jsstring)
| LinearError (message : jsstring).

Definition exn_message (e : exn) : jsstring :=
  match e with
  | Error m | TypeError m | LinearError m => m
  end.

(** How a call ends: normally with a value, or abruptly with a thrown
    exception (a rejected promise, for the [async] functions). *)
Inductive completion (A : Type) :=
| Normal (a : A)
| Throw (e : exn).
Arguments Normal {A} a.
Arguments Throw {A} e.

(** ** class RateLimiter (lines 14-47)

    Timestamps ([Date.now()], milliseconds) and counters are integers
    far below 2^53, where the arithmetic of JavaScript numbers is exact;
    they are modelled in [Z].  [Date.now()] is an input of the model. *)
Module RateLimiter.

Record Metrics := mkMetrics {
  totalRequests : Z;
  requestsInLastHour : Z;
  averageRequestTime : Z;
  queueLength : Z;
  lastRequestTime : Z
}.

Record t := mk {
  requestsPerHour : Z;
  requests : list Z;
  metrics : Metrics
}.

(** [constructor()], the clock reading [now] being [Date.now()]. *)
Definition constructor (now : Z) : t :=
  {| requestsPerHour := 1000;
     requests := [];
     metrics := {| totalRequests := 0;
                   requestsInLastHour := 0;
                   averageRequestTime := 0;
                   queueLength := 0;
                   lastRequestTime := now |} |}.

(** The predicate of line 29: [time => now - time < 3600000]. *)
Definition in_window (now time : Z) : bool := now - time <? 3600000.

Definition rate_limit_exceeded : exn := Error (lit "Rate limit exceeded").

(** [checkLimit()] with [Date.now() = now]: the outcome and the object
    afterwards.  The assignment of line 29 happens before the test, so
    the pruned array is kept when the call throws. *)
Definition checkLimit (now : Z) (s : t) : completion unit * t :=
  let pruned := filter (in_window now) (requests s) in
  if Z.of_nat (length pruned) >=? requestsPerHour s then
    (Throw rate_limit_exceeded,
     {| requestsPerHour := requestsPerHour s;
        requests := pruned;
        metrics := metrics s |})
  else
    let pushed := pruned ++ [now] in
    (Normal tt,
     {| requestsPerHour := requestsPerHour s;
        requests := pushed;
        metrics := {| totalRequests := totalRequests (metrics s) + 1;
                      requestsInLastHour := Z.of_nat (length pushed);
                      averageRequestTime := averageRequestTime (metrics s);
                      queueLength := queueLength (metrics s);
                      lastRequestTime := now |} |}).

(** The object [getMetrics()] returns: the metrics spread, and
    [remainingRequests]. *)
Record Snapshot := mkSnapshot {
  snap_totalRequests : Z;
  snap_requestsInLastHour : Z;
  snap_averageRequestTime : Z;
  snap_queueLength : Z;
  snap_lastRequestTime : Z;
  snap_remainingRequests : Z
}.

Definition getMetrics (s : t) : Snapshot :=
  {| snap_totalRequests := totalRequests (metrics s);
     snap_requestsInLastHour := requestsInLastHour (metrics s);
     snap_averageRequestTime := averageRequestTime (metrics s);
     snap_queueLength := queueLength (metrics s);
     snap_lastRequestTime := lastRequestTime (metrics s);
     snap_remainingRequests :=
       requestsPerHour s - requestsInLastHour (metrics s) |}.

(** A sequence of [checkLimit()] calls, one per clock reading: the
    limiter afterwards and the timestamps of the calls that were
    admitted, oldest first. *)
Definition admit_step (acc : t * list Z) (now : Z) : t * list Z :=
  match checkLimit now (fst acc) with
  | (Normal _, s') => (s', snd acc ++ [now])
  | (Throw _, s') => (s', snd acc)
  end.

Definition run (s : t) (clock : list Z) : t * list Z :=
  fold_left admit_step clock (s, []).

(** The number of recorded timestamps that line 29 keeps at [now]. *)
Definition recent (now : Z) (s : t) : Z :=
  Z.of_nat (length (filter (in_window now) (requests s))).

End RateLimiter.

(** ** Characters and the string built-ins the parser uses *)

Definition colon : code_unit := 58%N.
Definition dquote : code_unit := 34%N.
Definition dot : code_unit := 46%N.
Definition plus_sign : code_unit := 43%N.
Definition minus_sign : code_unit := 45%N.

(** The class [\s] of regular expressions, which is also the white space
    that [Number(...)] and [parseInt] trim: TAB, LF, VT, FF, CR, SP,
    NBSP, U+1680, U+2000..U+200A, LS, PS, U+202F, U+205F, U+3000,
    U+FEFF. *)
Definition is_space (c : code_unit) : bool :=
  (existsb (N.eqb c)
     [9; 10; 11; 12; 13; 32; 160; 5760; 8232; 8233; 8239; 8287; 12288; 65279]
   || (8192 <=? c) && (c <=? 8202))%N.

(** The characters that [.] does not match: LF, CR, LS, PS. *)
Definition is_line_terminator (c : code_unit) : bool :=
  existsb (N.eqb c) [10; 13; 8232; 8233]%N.

Definition in_range (lo hi c : code_unit) : bool := ((lo <=? c) && (c <=? hi))%N.
Definition is_digit : code_unit -> bool := in_range 48%N 57%N.
Definition is_octal_digit : code_unit -> bool := in_range 48%N 55%N.
Definition is_binary_digit : code_unit -> bool := in_range 48%N 49%N.
Definition is_hex_digit (c : code_unit) : bool :=
  is_digit c || in_range 97%N 102%N c || in_range 65%N 70%N c.

Definition is_nil {A} (l : list A) : bool :=
  match l with [] => true | _ => false end.

(** [s.includes(':')]. *)
Definition includes_colon (s : jsstring) : bool := existsb (N.eqb colon) s.

(** [String.prototype.toLowerCase], exact on the code units below U+0100
    and on the two characters above them whose lower case has an ASCII
    letter (U+0130, U+212A).  The other entries of the Unicode table send
    a character outside ASCII to characters outside ASCII and are left
    out: the program only compares the result with ASCII words. *)
Definition lower_unit (c : code_unit) : jsstring :=
  if in_range 65%N 90%N c then [c + 32]%N
  else if in_range 192%N 222%N c && negb (N.eqb c 215%N) then [c + 32]%N
  else if N.eqb c 304%N then [105; 775]%N
  else if N.eqb c 8490%N then [107]%N
  else [c].

Definition toLowerCase (s : jsstring) : jsstring := flat_map lower_unit s.

(** *** [isNaN] on a string: does [StringToNumber] fail?

    The grammar of StringNumericLiteral: optional white space around
    nothing at all (the number 0), around a binary, octal or hexadecimal
    integer without sign, or around an optionally signed decimal
    literal, which is [Infinity] or digits with an optional fraction and
    an optional exponent. *)

Fixpoint drop_space (l : jsstring) : jsstring :=
  match l with
  | c :: l' => if is_space c then drop_space l' else l
  | [] => []
  end.

Definition trim (l : jsstring) : jsstring :=
  rev (drop_space (rev (drop_space l))).

Fixpoint span_digits (l : jsstring) : jsstring * jsstring :=
  match l with
  | c :: l' =>
      if is_digit c then let (ds, r) := span_digits l' in (c :: ds, r)
      else ([], l)
  | [] => ([], [])
  end.

Definition drop_sign (l : jsstring) : jsstring :=
  match l with
  | c :: l' => if N.eqb c plus_sign || N.eqb c minus_sign then l' else l
  | [] => []
  end.

(** ExponentPart, or nothing. *)
Definition exponent_opt (l : jsstring) : bool :=
  match l with
  | [] => true
  | e :: r =>
      (N.eqb e 101%N || N.eqb e 69%N) &&
      negb (is_nil (drop_sign r)) && forallb is_digit (drop_sign r)
  end.

Definition unsigned_decimal (l : jsstring) : bool :=
  str_eqb l (lit "Infinity") ||
  let (int_part, r1) := span_digits l in
  match r1 with
  | c :: r2 =>
      if N.eqb c dot then
        let (frac_part, r3) := span_digits r2 in
        (negb (is_nil int_part) || negb (is_nil frac_part)) && exponent_opt r3
      else negb (is_nil int_part) && exponent_opt r1
  | [] => negb (is_nil int_part)
  end.

Definition non_decimal_integer (l : jsstring) : bool :=
  match l with
  | z :: x :: ds =>
      N.eqb z 48%N && negb (is_nil ds) &&
      ((N.eqb x 120%N || N.eqb x 88%N) && forallb is_hex_digit ds ||
       (N.eqb x 111%N || N.eqb x 79%N) && forallb is_octal_digit ds ||
       (N.eqb x 98%N || N.eqb x 66%N) && forallb is_binary_digit ds)
  | _ => false
  end.

Definition string_is_numeric (s : jsstring) : bool :=
  let body := trim s in
  is_nil body || non_decimal_integer body || unsigned_decimal (drop_sign body).

(** [isNaN(s)] for a string [s]. *)
Definition isNaN (s : jsstring) : bool := negb (string_is_numeric s).

(** *** [parseInt(s, 10)]

    Leading white space is skipped, a sign is read, and the longest run
    of decimal digits that follows gives the value; without a digit the
    result is NaN, here [None].  The result is an integer; above 2^53
    the engine rounds it, which changes none of the comparisons the
    program makes with 0, 2 and 4, and [-0] is [0] here. *)
Definition digits_value (ds : jsstring) : Z :=
  fold_left (fun acc c => 10 * acc + (Z.of_N c - 48)) ds 0.

Definition parseInt10 (s : jsstring) : option Z :=
  let s1 := drop_space s in
  let negative := match s1 with c :: _ => N.eqb c minus_sign | [] => false end in
  let ds := fst (span_digits (drop_sign s1)) in
  if is_nil ds then None
  else Some (if negative then - digits_value ds else digits_value ds).

(** ** The query parser (lines 328-424) *)

(** A value that may be [undefined]. *)
Definition value := option jsstring.

(** What a property of [PRIORITY_MAP] evaluates to: one of its five
    numbers, or a member inherited from [Object.prototype], named by its
    key. *)
Inductive jsval :=
| VNumber (n : Z)
| VInherited (key : jsstring).

(** [{ in: [...] }] and [{ eq: ... }]. *)
Inductive priority_filter :=
| PIn (levels : list Z)
| PEq (v : jsval).

(** The keys every object literal inherits from [Object.prototype]. *)
Definition object_prototype_keys : list jsstring :=
  map lit ["constructor"; "__defineGetter__"; "__defineSetter__";
           "hasOwnProperty"; "__lookupGetter__"; "__lookupSetter__";
           "isPrototypeOf"; "propertyIsEnumerable"; "toString"; "valueOf";
           "__proto__"; "toLocaleString"]%string.

(** [PRIORITY_MAP[k]], [None] for [undefined]: the own properties first,
    then the prototype. *)
Definition PRIORITY_MAP (k : jsstring) : option jsval :=
  if str_eqb k (lit "no") then Some (VNumber 0)
  else if str_eqb k (lit "urgent") then Some (VNumber 1)
  else if str_eqb k (lit "high") then Some (VNumber 2)
  else if str_eqb k (lit "medium") then Some (VNumber 3)
  else if str_eqb k (lit "low") then Some (VNumber 4)
  else if existsb (str_eqb k) object_prototype_keys then Some (VInherited k)
  else None.

(** The message V8 gives the [TypeError] of [value.toLowerCase()] when
    [value] is [undefined]. *)
Definition toLowerCase_of_undefined : exn :=
  TypeError (lit "Cannot read properties of undefined (reading 'toLowerCase')").

(** [parsePriorityFilter(value)], [None] for [undefined].  With
    [value === undefined], [isNaN(value)] is true and line 417 throws. *)
Definition parsePriorityFilter (v : value) : completion (option priority_filter) :=
  match v with
  | None => Throw toLowerCase_of_undefined
  | Some s =>
      if negb (isNaN s) then
        match parseInt10 s with
        | Some numValue =>
            if (numValue >=? 0) && (numValue <=? 4) then
              if numValue =? 2 then Normal (Some (PIn [1; 2]))
              else Normal (Some (PEq (VNumber numValue)))
            else Normal None
        | None => Normal None
        end
      else
        let lowercaseValue := toLowerCase s in
        if str_eqb lowercaseValue (lit "high") then Normal (Some (PIn [1; 2]))
        else match PRIORITY_MAP lowercaseValue with
             | Some x => Normal (Some (PEq x))
             | None => Normal None
             end
  end.

(** The filter object.  [state] holds [type: { nin }] and/or
    [name: { eq }]; [team] and [labels] hold [name: { eq }]; [or] holds
    the list of its two text predicates.  [None] is an absent property;
    the [eq] of a name may itself be [undefined]. *)
Inductive text_pred :=
| TitleContains (s : jsstring)
| DescriptionContains (s : jsstring).

Record state_obj := mkState {
  type_nin : option (list jsstring);
  name_eq : option value
}.

Record Filter := mkFilter {
  f_state : state_obj;
  f_team : option value;
  f_labels : option value;
  f_or : option (list text_pred)
}.

Record part_result := mkPart {
  part_isMyIssuesQuery : bool;
  part_priorityFilter : option priority_filter;
  part_hasExplicitStateFilter : bool
}.

(** [parseQueryPart(key, cleanValue, filter)]: the object returned and
    [filter] after the call (it is mutated in place). *)
Definition parseQueryPart (key : jsstring) (cleanValue : value) (filter : Filter)
  : completion (part_result * Filter) :=
  if str_eqb key (lit "assignee") then
    Normal (mkPart (match cleanValue with
                    | Some v => str_eqb v (lit "@me")
                    | None => false
                    end) None false,
            filter)
  else if str_eqb key (lit "priority") then
    match parsePriorityFilter cleanValue with
    | Normal p => Normal (mkPart false p false, filter)
    | Throw e => Throw e
    end
  else if str_eqb key (lit "state") || str_eqb key (lit "status") then
    Normal (mkPart false None true,
            mkFilter (mkState None (Some cleanValue))
                     (f_team filter) (f_labels filter) (f_or filter))
  else if str_eqb key (lit "team") then
    Normal (mkPart false None false,
            mkFilter (f_state filter) (Some cleanValue)
                     (f_labels filter) (f_or filter))
  else if str_eqb key (lit "label") then
    Normal (mkPart false None false,
            mkFilter (f_state filter) (f_team filter)
                     (Some cleanValue) (f_or filter))
  else if negb (includes_colon key) then
    Normal (mkPart false None false,
            mkFilter (f_state filter) (f_team filter) (f_labels filter)
                     (Some [TitleContains key; DescriptionContains key]))
  else Normal (mkPart false None false, filter).

(** *** The tokens: [query.match(/\S+:Q[^Q]+Q|[^:\s]+:[^\s]+|\S+/g) || []]

    (In the comments of this part [Q] stands for the double quote of the
    pattern.)  Each function below matches one piece of the pattern at the head of
    its argument, the way the backtracking matcher does (a greedy
    quantifier first takes one more character and gives it back when the
    rest fails), and returns the length matched. *)

(** [[^Q]*Q] *)
Fixpoint re_unquoted_then_quote (l : jsstring) : option nat :=
  match l with
  | [] => None
  | c :: l' =>
      if N.eqb c dquote then Some 1%nat
      else option_map S (re_unquoted_then_quote l')
  end.

(** [:Q[^Q]+Q] *)
Definition re_quoted_value (l : jsstring) : option nat :=
  match l with
  | c1 :: c2 :: c3 :: l' =>
      if N.eqb c1 colon && N.eqb c2 dquote && negb (N.eqb c3 dquote)
      then option_map (fun n => (3 + n)%nat) (re_unquoted_then_quote l')
      else None
  | _ => None
  end.

(** [\S*:Q[^Q]+Q] *)
Fixpoint re_alt1_rest (l : jsstring) : option nat :=
  match l with
  | [] => None
  | c :: l' =>
      match (if is_space c then None else re_alt1_rest l') with
      | Some n => Some (S n)
      | None => re_quoted_value l
      end
  end.

(** First alternative, [\S+:Q[^Q]+Q]. *)
Definition re_alt1 (l : jsstring) : option nat :=
  match l with
  | c :: l' => if is_space c then None else option_map S (re_alt1_rest l')
  | [] => None
  end.

(** [\S*] at the end of an alternative: the whole run. *)
Fixpoint nonspace_run (l : jsstring) : nat :=
  match l with
  | c :: l' => if is_space c then 0%nat else S (nonspace_run l')
  | [] => 0%nat
  end.

(** [:[^\s]+] *)
Definition re_colon_value (l : jsstring) : option nat :=
  match l with
  | c :: l' =>
      if N.eqb c colon then
        match nonspace_run l' with
        | O => None
        | S n => Some (S (S n))
        end
      else None
  | [] => None
  end.

(** [[^:\s]*:[^\s]+] *)
Fixpoint re_alt2_rest (l : jsstring) : option nat :=
  match l with
  | [] => None
  | c :: l' =>
      match (if is_space c || N.eqb c colon then None else re_alt2_rest l') with
      | Some n => Some (S n)
      | None => re_colon_value l
      end
  end.

(** Second alternative, [[^:\s]+:[^\s]+]. *)
Definition re_alt2 (l : jsstring) : option nat :=
  match l with
  | c :: l' =>
      if is_space c || N.eqb c colon then None
      else option_map S (re_alt2_rest l')
  | [] => None
  end.

(** Third alternative, [\S+]. *)
Definition re_alt3 (l : jsstring) : option nat :=
  match nonspace_run l with
  | O => None
  | S n => Some (S n)
  end.

(** The pattern at the head of [l]: the alternatives in order. *)
Definition re_token (l : jsstring) : option nat :=
  match re_alt1 l with
  | Some n => Some n
  | None =>
      match re_alt2 l with
      | Some n => Some n
      | None => re_alt3 l
      end
  end.

(** The global match.  [inside] counts the characters of the current
    match that are still to be passed before the search resumes (the
    [lastIndex] of the pattern); where the pattern fails the search
    moves on by one character. *)
Fixpoint match_all (l : jsstring) (inside : nat) : list jsstring :=
  match l with
  | [] => []
  | _ :: l' =>
      match inside with
      | S k => match_all l' k
      | O =>
          match re_token l with
          | Some n => firstn n l :: match_all l' (n - 1)
          | None => match_all l' 0
          end
      end
  end.

Definition queryParts (query : jsstring) : list jsstring := match_all query 0.

(** [part.split(':')] *)
Fixpoint split_colon (part : jsstring) : list jsstring :=
  match part with
  | [] => [[]]
  | c :: rest =>
      if N.eqb c colon then [] :: split_colon rest
      else match split_colon rest with
           | seg :: segs => (c :: seg) :: segs
           | [] => [[c]]
           end
  end.

(** [const [key, value] = part.split(':')] *)
Definition key_of (segs : list jsstring) : jsstring := hd [] segs.
Definition value_of (segs : list jsstring) : value :=
  match segs with
  | _ :: v :: _ => Some v
  | _ => None
  end.

(** [v.replace(re, '$1')], where [re] is: start of the string, [Q], a
    group of as many characters other than line terminators as possible,
    [Q], end of the string.  The quotes go when [v] starts and ends with
    one and no line terminator is between them. *)
Definition strip_quotes (v : jsstring) : jsstring :=
  match v with
  | q :: rest =>
      match rev rest with
      | q' :: inner =>
          if N.eqb q dquote && N.eqb q' dquote &&
             forallb (fun c => negb (is_line_terminator c)) inner
          then rev inner else v
      | [] => v
      end
  | [] => v
  end.

(** [value?.replace(...)] *)
Definition cleanValue_of (v : value) : value := option_map strip_quotes v.

(** The object [parseQuery] returns ([p_filter] is its [filter]
    property). *)
Record parsed := mkParsed {
  p_filter : Filter;
  isMyIssuesQuery : bool;
  priorityFilter : option priority_filter
}.

Definition default_state : state_obj :=
  mkState (Some [lit "completed"; lit "canceled"]) None.

Definition initial_filter : Filter := mkFilter default_state None None None.

(** The variables of the loop of lines 341-348. *)
Record loop_state := mkLoop {
  l_filter : Filter;
  l_isMyIssuesQuery : bool;
  l_priorityFilter : option priority_filter;
  l_hasExplicitStateFilter : bool
}.

(** One iteration.  An object is truthy, so [a || b] on the priority
    filters keeps [b] only when [a] is [undefined]. *)
Definition loop_body (st : loop_state) (part : jsstring) : completion loop_state :=
  let segs := split_colon part in
  match parseQueryPart (key_of segs) (cleanValue_of (value_of segs)) (l_filter st) with
  | Throw e => Throw e
  | Normal (result, filter') =>
      Normal (mkLoop filter'
                (part_isMyIssuesQuery result || l_isMyIssuesQuery st)
                (match part_priorityFilter result with
                 | Some p => Some p
                 | None => l_priorityFilter st
                 end)
                (part_hasExplicitStateFilter result || l_hasExplicitStateFilter st))
  end.

Fixpoint loop (parts : list jsstring) (st : loop_state) : completion loop_state :=
  match parts with
  | [] => Normal st
  | part :: parts' =>
      match loop_body st part with
      | Throw e => Throw e
      | Normal st' => loop parts' st'
      end
  end.

(** [delete filter.state.type] *)
Definition delete_state_type (f : Filter) : Filter :=
  mkFilter (mkState None (name_eq (f_state f))) (f_team f) (f_labels f) (f_or f).

Definition parseQuery (query : jsstring) : completion parsed :=
  match loop (queryParts query) (mkLoop initial_filter false None false) with
  | Throw e => Throw e
  | Normal st =>
      let filter :=
        if l_hasExplicitStateFilter st then delete_state_type (l_filter st)
        else l_filter st in
      Normal (mkParsed filter (l_isMyIssuesQuery st) (l_priorityFilter st))
  end.

(** ** The response shaper (lines 59-74, 426-450) *)

(** The part of an upstream issue that [mapIssue] reads.  [None] is an
    absent ([undefined] or [null]) field; [i_state] and [i_assignee] are
    [issue.state?.name] and [issue.assignee?.name], [i_labels] is the
    names of [issue.labels?.nodes]. *)
Record Issue := mkIssue {
  i_id : jsstring;
  i_identifier : jsstring;
  i_title : jsstring;
  i_state : option jsstring;
  i_assignee : option jsstring;
  i_priority : option Z;
  i_url : jsstring;
  i_createdAt : jsstring;
  i_estimate : option Z;
  i_labels : option (list jsstring);
  i_description : option jsstring
}.

Record MappedIssue := mkMappedIssue {
  m_id : jsstring;
  m_identifier : jsstring;
  m_title : jsstring;
  m_status : option jsstring;
  m_assignee : option jsstring;
  m_priority : option jsstring;
  m_url : jsstring;
  m_createdAt : jsstring;
  m_estimate : option Z;
  m_labels : list jsstring;
  m_description : option jsstring
}.

Definition PRIORITY_LABELS : list jsstring :=
  map lit ["No priority"; "Urgent"; "High"; "Medium"; "Low"]%string.

(** [PRIORITY_LABELS[issue.priority || 0]] *)
Definition priority_label (p : option Z) : option jsstring :=
  match p with
  | Some n => if n <? 0 then None else nth_error PRIORITY_LABELS (Z.to_nat n)
  | None => nth_error PRIORITY_LABELS 0
  end.

Definition mapIssue (issue : Issue) : MappedIssue :=
  {| m_id := i_id issue;
     m_identifier := i_identifier issue;
     m_title := i_title issue;
     m_status := i_state issue;
     m_assignee := i_assignee issue;
     m_priority := priority_label (i_priority issue);
     m_url := i_url issue;
     m_createdAt := i_createdAt issue;
     m_estimate := i_estimate issue;
     m_labels := match i_labels issue with Some l => l | None => [] end;
     m_description := i_description issue |}.

Record State := mkStateRecord {
  s_id : jsstring;
  s_name : jsstring;
  s_type : jsstring
}.

Record Team := mkTeam {
  t_id : jsstring;
  t_name : jsstring;
  t_key : jsstring;
  t_description : option jsstring
}.

Record MappedTeam := mkMappedTeam {
  mt_id : jsstring;
  mt_name : jsstring;
  mt_key : jsstring;
  mt_description : option jsstring;
  mt_states : list State
}.

Definition mapState (state : State) : State :=
  {| s_id := s_id state; s_name := s_name state; s_type := s_type state |}.

Definition mapTeam (team : Team) (states : list State) : MappedTeam :=
  {| mt_id := t_id team;
     mt_name := t_name team;
     mt_key := t_key team;
     mt_description := t_description team;
     mt_states := map mapState states |}.

Record Organization := mkOrganization {
  o_id : jsstring;
  o_name : jsstring;
  o_urlKey : jsstring;
  o_createdAt : jsstring
}.

(** The object a handler hands to [createResponse]. *)
Inductive data :=
| DIssue (issue : MappedIssue)
| DIssues (issues : list MappedIssue)
| DOrganization (org : Organization)
| DTeam (team : MappedTeam)
| DTeams (teams : list MappedTeam).

Inductive body :=
| BError (error : jsstring)
| BFound (message : jsstring) (total : nat) (issues : list MappedIssue)
| BData (d : data).

(** The object that [createResponse] serialises with [JSON.stringify]:
    the properties of the body and [apiMetrics]. *)
Record payload := mkPayload {
  pl_body : body;
  apiMetrics : RateLimiter.Snapshot
}.

(** The [error] property of a payload, when it has one. *)
Definition error_of (p : payload) : option jsstring :=
  match pl_body p with
  | BError e => Some e
  | _ => None
  end.

Definition createResponse (b : body) (rateLimiter : RateLimiter.t) : payload :=
  {| pl_body := b; apiMetrics := RateLimiter.getMetrics rateLimiter |}.

(** [handleLinearError] (lines 119-124) *)
Definition handleLinearError (error : exn) : jsstring :=
  match error with
  | LinearError message => lit "Linear API Error: " ++ message
  | _ => lit "Error: " ++ exn_message error
  end.

(** A number in a template literal. *)
Definition decimal (n : nat) : jsstring :=
  lit (NilZero.string_of_uint (Nat.to_uint n)).

(** ** The upstream client and the handlers *)

(** [{ ...filter, priority: priorityFilter }] *)
Record IssueFilter := mkIssueFilter {
  if_state : state_obj;
  if_team : option value;
  if_labels : option value;
  if_or : option (list text_pred);
  if_priority : option priority_filter
}.

Definition with_priority (f : Filter) (p : option priority_filter) : IssueFilter :=
  mkIssueFilter (f_state f) (f_team f) (f_labels f) (f_or f) p.

Record User := mkUser { u_id : jsstring }.

(** The calls the handlers make on the upstream client, with their
    arguments. *)
Inductive request :=
| ReqViewer
| ReqAssignedIssues (me : User) (first : Z) (orderBy : jsstring) (flt : Filter)
| ReqIssues (first : Z) (flt : option IssueFilter) (orderBy : jsstring)
            (includeArchived : bool)
| ReqIssue (id : jsstring)
| ReqOrganization
| ReqTeam (id : jsstring)
| ReqTeams
| ReqStates (team : Team).

(** The upstream client: how each call ends.  It is an input of the
    model.  [issue] may resolve to nothing ([None]). *)
Record Client := mkClient {
  viewer : completion User;
  assignedIssues : User -> Z -> jsstring -> Filter -> completion (list Issue);
  issues : Z -> option IssueFilter -> jsstring -> bool -> completion (list Issue);
  issue : jsstring -> completion (option Issue);
  organization : completion Organization;
  team : jsstring -> completion Team;
  teams : completion (list Team);
  states : Team -> completion (list State)
}.

(** What a handler can change or emit: the module-level [rateLimiter]
    and the calls made upstream, oldest first. *)
Record World := mkWorld {
  rateLimiter : RateLimiter.t;
  calls : list request
}.

(** Handlers are written in a state-and-exception monad over [World]. *)
Definition M (A : Type) : Type := World -> completion A * World.

Definition ret {A} (a : A) : M A := fun w => (Normal a, w).

Definition throw {A} (e : exn) : M A := fun w => (Throw e, w).

Definition bind {A B} (m : M A) (k : A -> M B) : M B :=
  fun w =>
    match m w with
    | (Normal a, w') => k a w'
    | (Throw e, w') => (Throw e, w')
    end.

Notation "x <- m ;; k" := (bind m (fun x => k))
  (at level 61, m at next level, right associativity).

(** [try { m } catch (error) { h error }] *)
Definition try_catch {A} (m : M A) (h : exn -> M A) : M A :=
  fun w =>
    match m w with
    | (Throw e, w') => h e w'
    | r => r
    end.

(** A call of a pure function that may throw. *)
Definition eval {A} (c : completion A) : M A := fun w => (c, w).

(** An awaited upstream call. *)
Definition upstream {A} (r : request) (answer : completion A) : M A :=
  fun w => (answer, mkWorld (rateLimiter w) (calls w ++ [r])).

(** [await rateLimiter.checkLimit()] at clock reading [now]. *)
Definition checkLimit (now : Z) : M unit :=
  fun w =>
    let (r, l) := RateLimiter.checkLimit now (rateLimiter w) in
    (r, mkWorld l (calls w)).

(** [return createResponse(b)]: the metrics are read when the response
    is built. *)
Definition respond (b : body) : M payload :=
  fun w => (Normal (createResponse b (rateLimiter w)), w).

(** The [catch] clause every handler ends with. *)
Definition respond_error (error : exn) : M payload :=
  respond (BError (handleLinearError error)).

Definition updatedAt : jsstring := lit "updatedAt".

(** The handler of [search-issues] (lines 169-226); [now] is what
    [Date.now()] returns inside [checkLimit]. *)
Definition search_issues (c : Client) (now : Z) (query : jsstring) : M payload :=
  try_catch
    (_ <- checkLimit now ;;
     me <- try_catch (upstream ReqViewer (viewer c))
             (fun _ => throw (Error (lit "Failed to get current user information"))) ;;
     p <- eval (parseQuery query) ;;
     if isMyIssuesQuery p then
       myIssues <- upstream (ReqAssignedIssues me 100 updatedAt (p_filter p))
                     (assignedIssues c me 100 updatedAt (p_filter p)) ;;
       let mappedIssues := map mapIssue myIssues in
       respond (BFound (lit "Found " ++ decimal (length mappedIssues)
                          ++ lit " issues assigned to you")
                  (length mappedIssues) mappedIssues)
     else
       let merged := with_priority (p_filter p) (priorityFilter p) in
       nodes <- upstream (ReqIssues 100 (Some merged) updatedAt false)
                  (issues c 100 (Some merged) updatedAt false) ;;
       let mappedIssues := map mapIssue nodes in
       respond (BFound (lit "Found " ++ decimal (length mappedIssues) ++ lit " issues")
                  (length mappedIssues) mappedIssues))
    respond_error.

(** *** The resource URI

    [uri.match(re)], where [re] is: start of the string, [linear://], a
    group of one or more characters other than [/], a [/], a group of
    one or more characters other than line terminators, end of the
    string.  The two groups, when the pattern matches. *)
Definition slash : code_unit := 47%N.

Fixpoint strip_prefix (prefix l : jsstring) : option jsstring :=
  match prefix, l with
  | [], _ => Some l
  | a :: prefix', b :: l' => if N.eqb a b then strip_prefix prefix' l' else None
  | _ :: _, [] => None
  end.

Fixpoint span_unslashed (l : jsstring) : jsstring * jsstring :=
  match l with
  | c :: l' =>
      if N.eqb c slash then ([], l)
      else let (a, r) := span_unslashed l' in (c :: a, r)
  | [] => ([], [])
  end.

Definition match_uri (uri : jsstring) : option (jsstring * jsstring) :=
  match strip_prefix (lit "linear://") uri with
  | None => None
  | Some rest =>
      let (resourceType, r) := span_unslashed rest in
      match r with
      | _ :: id =>
          if negb (is_nil resourceType) && negb (is_nil id) &&
             forallb (fun c => negb (is_line_terminator c)) id
          then Some (resourceType, id) else None
      | [] => None
      end
  end.

(** [team.states()] mapped to the three fields, then [mapTeam]. *)
Definition team_with_states (c : Client) (team : Team) : M MappedTeam :=
  states <- upstream (ReqStates team) (states c team) ;;
  ret (mapTeam team (map mapState states)).

(** [Promise.all(nodes.map(async team => ...))]: the calls start in the
    order of the list; the first failure in that order is the one
    modelled as thrown. *)
Fixpoint all_teams (c : Client) (nodes : list Team) : M (list MappedTeam) :=
  match nodes with
  | [] => ret []
  | team :: nodes' =>
      t <- team_with_states c team ;;
      ts <- all_teams c nodes' ;;
      ret (t :: ts)
  end.

(** The handler of [read-resource] (lines 236-308).  A string is truthy
    when it is not empty. *)
Definition read_resource (c : Client) (uri : jsstring) : M payload :=
  try_catch
    (match match_uri uri with
     | None => throw (Error (lit "Invalid Linear URI format: " ++ uri))
     | Some (resourceType, id) =>
         if str_eqb resourceType (lit "issues") then
           if negb (is_nil id) then
             found <- upstream (ReqIssue id) (issue c id) ;;
             match found with
             | None => throw (Error (lit "Issue not found: " ++ id))
             | Some i => respond (BData (DIssue (mapIssue i)))
             end
           else
             nodes <- upstream (ReqIssues 100 None updatedAt false)
                        (issues c 100 None updatedAt false) ;;
             respond (BData (DIssues (map mapIssue nodes)))
         else if str_eqb resourceType (lit "organization") then
           org <- upstream ReqOrganization (organization c) ;;
           respond (BData (DOrganization org))
         else if str_eqb resourceType (lit "teams") then
           if negb (is_nil id) then
             team <- upstream (ReqTeam id) (team c id) ;;
             t <- team_with_states c team ;;
             respond (BData (DTeam t))
           else
             nodes <- upstream ReqTeams (teams c) ;;
             ts <- all_teams c nodes ;;
             respond (BData (DTeams ts))
         else throw (Error (lit "Unknown resource type: " ++ resourceType))
     end)
    respond_error.

(** A fresh process: the limiter just constructed, no call made yet. *)
Definition initial_world (created : Z) : World :=
  mkWorld (RateLimiter.constructor created) [].

(** ** Vocabulary of the statements *)

(** The key and the clean value that the loop of [parseQuery] takes
    from a part. *)
Definition part_key (part : jsstring) : jsstring := key_of (split_colon part).
Definition part_value (part : jsstring) : value :=
  cleanValue_of (value_of (split_colon part)).

(** The keys [parseQueryPart] has a [case] for. *)
Definition handled_keys : list jsstring :=
  map lit ["assignee"; "priority"; "state"; "status"; "team"; "label"]%string.

Definition is_handled (key : jsstring) : bool := existsb (str_eqb key) handled_keys.

(** A bare word: a part without a colon. *)
Definition is_bare (part : jsstring) : bool := negb (includes_colon part).

(** [a || b] on values that are objects or [undefined]. *)
Definition or_else {A} (a b : option A) : option A :=
  match a with
  | Some x => Some x
  | None => b
  end.

(** What [f] gives on the last part on which it gives something. *)
Fixpoint last_of {A} (f : jsstring -> option A) (parts : list jsstring) : option A :=
  match parts with
  | [] => None
  | part :: parts' => or_else (last_of f parts') (f part)
  end.

(** What one part contributes to each variable of the loop. *)
Definition free_text_of (part : jsstring) : option (list text_pred) :=
  if is_handled (part_key part) then None
  else Some [TitleContains (part_key part); DescriptionContains (part_key part)].

Definition state_of (part : jsstring) : option value :=
  if str_eqb (part_key part) (lit "state") || str_eqb (part_key part) (lit "status")
  then Some (part_value part) else None.

Definition team_of (part : jsstring) : option value :=
  if str_eqb (part_key part) (lit "team") then Some (part_value part) else None.

Definition label_of (part : jsstring) : option value :=
  if str_eqb (part_key part) (lit "label") then Some (part_value part) else None.

Definition priority_of (part : jsstring) : option priority_filter :=
  if str_eqb (part_key part) (lit "priority") then
    match parsePriorityFilter (part_value part) with
    | Normal p => p
    | Throw _ => None
    end
  else None.

Definition is_me (part : jsstring) : bool :=
  str_eqb (part_key part) (lit "assignee") &&
  match part_value part with
  | Some v => str_eqb v (lit "@me")
  | None => false
  end.

Definition is_state (part : jsstring) : bool :=
  str_eqb (part_key part) (lit "state") || str_eqb (part_key part) (lit "status").

(** The bare word [priority], the part on which [parsePriorityFilter]
    is called with [undefined]. *)
Definition is_bare_priority (part : jsstring) : bool := str_eqb part (lit "priority").

(** One iteration of the loop on the filter, in terms of what the part
    contributes. *)
Definition step_filter (part : jsstring) (f : Filter) : Filter :=
  mkFilter (match state_of part with
            | Some v => mkState None (Some v)
            | None => f_state f
            end)
           (or_else (team_of part) (f_team f))
           (or_else (label_of part) (f_labels f))
           (or_else (free_text_of part) (f_or f)).

(** What [parseQuery] returns, when it returns, from the parts. *)
Definition compiled (parts : list jsstring) : parsed :=
  mkParsed
    (mkFilter
       (match last_of state_of parts with
        | Some v => mkState None (Some v)
        | None => default_state
        end)
       (last_of team_of parts)
       (last_of label_of parts)
       (last_of free_text_of parts))
    (existsb is_me parts)
    (last_of priority_of parts).

(** The result of a completion that is known to be normal. *)
Definition normal_value {A} (c : completion A) : option A :=
  match c with
  | Normal a => Some a
  | Throw _ => None
  end.

(** A client for the examples: the viewer resolves, [issue] resolves to
    nothing, every list is empty. *)
Definition quiet_client : Client :=
  {| viewer := Normal (mkUser (lit "me"));
     assignedIssues := fun _ _ _ _ => Normal [];
     issues := fun _ _ _ _ => Normal [];
     issue := fun _ => Normal None;
     organization := Normal (mkOrganization (lit "o") (lit "Org") (lit "org") (lit "2024"));
     team := fun id => Normal (mkTeam id (lit "Team") (lit "T") None);
     teams := Normal [];
     states := fun _ => Normal [] |}.

(** ** More vocabulary *)

(** The interval of one hour that ends at [T]: the timestamps [t] with
    [T - 3600000 < t <= T]. *)
Definition within_hour (T t : Z) : bool :=
  RateLimiter.in_window T t && (t <=? T).

(** [query.match(/\S+/g) || []]: the maximal runs of characters that
    are not white space. *)
Fixpoint words_from (l : jsstring) (inside : nat) : list jsstring :=
  match l with
  | [] => []
  | _ :: l' =>
      match inside with
      | S k => words_from l' k
      | O =>
          match nonspace_run l with
          | O => words_from l' 0
          | S n => firstn (S n) l :: words_from l' n
          end
      end
  end.

Definition words (query : jsstring) : list jsstring := words_from query 0.

(** Does the string hold a double quote? *)
Definition has_quote (s : jsstring) : bool := existsb (N.eqb dquote) s.

(** A value between double quotes. *)
Definition quoted (v : jsstring) : jsstring := dquote :: v ++ [dquote].

(* ===================================================================== *)
(** * Part II: properties                                                 *)
(* ===================================================================== *)

Module RateLimiterFacts.
Import RateLimiter.

Lemma run_snoc s clock now :
  run s (clock ++ [now]) = admit_step (run s clock) now.
Proof. unfold run. now rewrite fold_left_app. Qed.

(** The ceiling never changes. *)
Lemma checkLimit_requestsPerHour now s :
  requestsPerHour (snd (checkLimit now s)) = requestsPerHour s.
Proof.
  unfold checkLimit.
  destruct (Z.of_nat _ >=? requestsPerHour s); reflexivity.
Qed.

Lemma run_requestsPerHour clock : forall s,
  requestsPerHour (fst (run s clock)) = requestsPerHour s.
Proof.
  induction clock as [|now clock IH] using rev_ind; intro s; [reflexivity|].
  rewrite run_snoc. unfold admit_step.
  pose proof (checkLimit_requestsPerHour now (fst (run s clock))) as H.
  destruct (checkLimit now (fst (run s clock))) as [[u|e] s']; simpl in *;
    now rewrite H, IH.
Qed.

(** One call on any limiter.  When the pruned window already holds
    [requestsPerHour] timestamps the call throws, keeps the pruned
    window without [now] and leaves every metric alone; otherwise it
    returns, the window is the pruned one followed by [now], and
    [totalRequests] grows by one. *)
Lemma checkLimit_cases now s :
  let pruned := filter (in_window now) (requests s) in
  if requestsPerHour s <=? recent now s then
    fst (checkLimit now s) = Throw rate_limit_exceeded /\
    requests (snd (checkLimit now s)) = pruned /\
    metrics (snd (checkLimit now s)) = metrics s
  else
    fst (checkLimit now s) = Normal tt /\
    requests (snd (checkLimit now s)) = pruned ++ [now] /\
    totalRequests (metrics (snd (checkLimit now s))) =
      totalRequests (metrics s) + 1.
Proof.
  unfold recent, checkLimit. cbv zeta.
  rewrite Z.geb_leb.
  destruct (requestsPerHour s <=? _); simpl; auto.
Qed.

(** C1.  A limiter reached from its construction by any sequence of
    [checkLimit()] calls has the ceiling 1000, and the next call, at
    clock reading [now], goes as follows.  If at least 1000 recorded
    timestamps lie within the trailing 3,600,000 ms (they are less than
    3,600,000 ms old, the test of line 29), the call throws
    "Rate limit exceeded", [now] is not appended to the window and
    [totalRequests] (with every other metric) is unchanged; otherwise
    the call returns, [now] is appended to the pruned window and
    [totalRequests] is incremented. *)
Theorem checkLimit_admits_below_ceiling (created : Z) (clock : list Z) (now : Z) :
  let s := fst (run (constructor created) clock) in
  let pruned := filter (in_window now) (requests s) in
  requestsPerHour s = 1000 /\
  if 1000 <=? recent now s then
    fst (checkLimit now s) = Throw rate_limit_exceeded /\
    requests (snd (checkLimit now s)) = pruned /\
    metrics (snd (checkLimit now s)) = metrics s
  else
    fst (checkLimit now s) = Normal tt /\
    requests (snd (checkLimit now s)) = pruned ++ [now] /\
    totalRequests (metrics (snd (checkLimit now s))) =
      totalRequests (metrics s) + 1.
Proof.
  intros s pruned.
  assert (Hc : requestsPerHour s = 1000)
    by (unfold s; now rewrite run_requestsPerHour).
  split; [exact Hc|].
  pose proof (checkLimit_cases now s) as H. cbv zeta in H.
  rewrite Hc in H. exact H.
Qed.

(** *** The window under a monotone clock *)

Lemma in_window_self now : in_window now now = true.
Proof. unfold in_window. apply Z.ltb_lt. lia. Qed.

Lemma in_window_earlier earlier now t :
  earlier <= now -> in_window now t = true -> in_window earlier t = true.
Proof. unfold in_window. rewrite !Z.ltb_lt. lia. Qed.

(** Pruning at a later clock reading absorbs an earlier pruning. *)
Lemma prune_prune earlier now (l : list Z) :
  earlier <= now ->
  filter (in_window now) (filter (in_window earlier) l) =
  filter (in_window now) l.
Proof.
  intro Hle. induction l as [|t l IH]; simpl; [reflexivity|].
  destruct (in_window earlier t) eqn:He; simpl.
  - now rewrite IH.
  - destruct (in_window now t) eqn:Hn; [|exact IH].
    rewrite (in_window_earlier earlier now t Hle Hn) in He. discriminate.
Qed.

Lemma StronglySorted_snoc_inv (l : list Z) x :
  StronglySorted Z.le (l ++ [x]) ->
  StronglySorted Z.le l /\ Forall (fun t => t <= x) l.
Proof.
  induction l as [|a l IH]; simpl; intro H.
  - split; constructor.
  - inversion H as [|? ? Hs Hf]; subst.
    destruct (IH Hs) as [Hl Hx]. split.
    + constructor; [exact Hl|].
      apply Forall_app in Hf. tauto.
    + constructor; [|exact Hx].
      apply Forall_app in Hf. destruct Hf as [_ Hf].
      now inversion Hf.
Qed.

Lemma StronglySorted_snoc (l : list Z) x :
  StronglySorted Z.le l -> Forall (fun t => t <= x) l ->
  StronglySorted Z.le (l ++ [x]).
Proof.
  induction l as [|a l IH]; simpl; intros Hs Hf.
  - repeat constructor.
  - inversion Hs; inversion Hf; subst.
    constructor; [now apply IH|].
    apply Forall_app. split; [assumption|now constructor].
Qed.

Lemma StronglySorted_filter (f : Z -> bool) (l : list Z) :
  StronglySorted Z.le l -> StronglySorted Z.le (filter f l).
Proof.
  induction 1 as [|a l Hs IH Hf]; simpl; [constructor|].
  destruct (f a); [|exact IH].
  constructor; [exact IH|].
  rewrite Forall_forall in *. intros t Ht.
  apply filter_In in Ht. now apply Hf.
Qed.

(** The invariant of a run that starts at the constructor, under a
    non-decreasing clock: the admitted timestamps are clock readings in
    chronological order, and the window is what pruning at the last
    clock reading leaves of them. *)
Lemma run_invariant created (clock : list Z) :
  StronglySorted Z.le clock ->
  let r := run (constructor created) clock in
  incl (snd r) clock /\
  StronglySorted Z.le (snd r) /\
  requests (fst r) = filter (in_window (last clock 0)) (snd r).
Proof.
  induction clock as [|now clock IH] using rev_ind; intro Hs.
  - simpl. repeat split; [apply incl_refl|constructor].
  - apply StronglySorted_snoc_inv in Hs. destruct Hs as [Hs Hle].
    specialize (IH Hs). cbv zeta in IH. destruct IH as (Hin & Hadm & Hreq).
    cbv zeta. rewrite run_snoc, last_last.
    destruct (run (constructor created) clock) as [s adm] eqn:Hrun.
    simpl in Hin, Hadm, Hreq.
    assert (Hprune : filter (in_window now) (requests s) =
                     filter (in_window now) adm).
    { rewrite Hreq. destruct clock as [|c0 clock'] using rev_ind.
      - destruct adm as [|a adm]; [reflexivity|].
        destruct (Hin a (or_introl eq_refl)).
      - rewrite last_last. apply prune_prune.
        rewrite Forall_forall in Hle. apply Hle.
        apply in_or_app. right. now left. }
    unfold admit_step, checkLimit. simpl fst. simpl snd.
    rewrite Hprune.
    destruct (Z.of_nat _ >=? requestsPerHour s); simpl.
    + repeat split.
      * intros t Ht. apply in_or_app. left. now apply Hin.
      * exact Hadm.
    + repeat split.
      * apply incl_app; [|intros t [<-|[]]; apply in_or_app; right; now left].
        intros t Ht. apply in_or_app. left. now apply Hin.
      * apply StronglySorted_snoc; [exact Hadm|].
        rewrite Forall_forall in *. intros t Ht. apply Hle. now apply Hin.
      * rewrite filter_app. simpl. now rewrite in_window_self.
Qed.

(** C2.  Under a non-decreasing clock, right after the call made at
    [now] (admitted or not) the window holds exactly the timestamps of
    the calls admitted so far that lie within 3,600,000 ms of [now], so
    its size is the number of admits of the trailing hour, and its
    elements are in non-decreasing order. *)
Theorem window_is_trailing_hour (created : Z) (clock : list Z) (now : Z) :
  Sorted Z.le (clock ++ [now]) ->
  let r := run (constructor created) (clock ++ [now]) in
  requests (fst r) = filter (in_window now) (snd r) /\
  length (requests (fst r)) = length (filter (in_window now) (snd r)) /\
  Sorted Z.le (requests (fst r)).
Proof.
  intros Hs r.
  assert (Hss : StronglySorted Z.le (clock ++ [now])).
  { apply Sorted_StronglySorted; [|exact Hs].
    intros x y z. apply Z.le_trans. }
  destruct (run_invariant created _ Hss) as (_ & Hadm & Hreq).
  rewrite last_last in Hreq. fold r in Hadm, Hreq.
  split; [exact Hreq|]. split; [now rewrite Hreq|].
  apply StronglySorted_Sorted. rewrite Hreq.
  now apply StronglySorted_filter.
Qed.

(** A run with three calls: the first timestamp has aged out at the
    third call. *)
Lemma window_is_trailing_hour_witness :
  let r := run (constructor 0) ([5; 7] ++ [3600006]) in
  requests (fst r) = filter (in_window 3600006) (snd r) /\
  length (requests (fst r)) = length (filter (in_window 3600006) (snd r)) /\
  Sorted Z.le (requests (fst r)).
Proof.
  apply (window_is_trailing_hour 0 [5; 7] 3600006).
  simpl. repeat constructor; lia.
Defined.

(** *** The ceiling *)

(** A timestamp that is exactly 3,600,000 ms old is pruned. *)
Example in_window_boundary :
  in_window 3600000 0 = false /\ in_window 3599999 0 = true.
Proof. split; reflexivity. Qed.

Lemma filter_all {A} (f : A -> bool) l :
  (forall x, In x l -> f x = true) -> filter f l = l.
Proof.
  induction l as [|a l IH]; intro H; [reflexivity|].
  cbn [filter]. rewrite (H a) by now left.
  f_equal. apply IH. intros x Hx. apply H. now right.
Qed.

(** Up to 1000 calls within one hour are all admitted. *)
Lemma run_all_admitted created clock :
  (length clock <= 1000)%nat ->
  (forall a b, In a clock -> In b clock -> b - a < 3600000) ->
  snd (run (constructor created) clock) = clock /\
  requests (fst (run (constructor created) clock)) = clock.
Proof.
  induction clock as [|now clock IH] using rev_ind; intros Hlen Hwin.
  - split; reflexivity.
  - rewrite length_app in Hlen. cbn [length] in Hlen.
    destruct IH as [Hadm Hreq]; [lia| |].
    { intros a b Ha Hb. apply Hwin; apply in_or_app; now left. }
    rewrite run_snoc.
    pose proof (run_requestsPerHour clock (constructor created)) as Hc.
    destruct (run (constructor created) clock) as [s adm].
    cbn [fst snd] in *. subst adm.
    unfold admit_step, checkLimit. cbn [fst snd].
    rewrite Hreq, filter_all.
    2:{ intros t Ht. apply Z.ltb_lt.
        apply Hwin; apply in_or_app; [now left|right; now left]. }
    rewrite Hc. cbn [requestsPerHour constructor].
    destruct (Z.of_nat (length clock) >=? 1000) eqn:E.
    + rewrite Z.geb_leb in E. apply Z.leb_le in E. lia.
    + split; reflexivity.
Qed.

(** X2.  After exactly 1000 admitted calls within one hour, the next call
    throws. *)
Lemma ceiling_reached created clock now :
  length clock = 1000%nat ->
  (forall a b, In a (clock ++ [now]) -> In b (clock ++ [now]) ->
               b - a < 3600000) ->
  snd (run (constructor created) clock) = clock /\
  fst (checkLimit now (fst (run (constructor created) clock))) =
    Throw rate_limit_exceeded.
Proof.
  intros Hlen Hwin.
  destruct (run_all_admitted created clock) as [Hadm Hreq]; [lia| |].
  { intros a b Ha Hb. apply Hwin; apply in_or_app; now left. }
  split; [exact Hadm|].
  pose proof (run_requestsPerHour clock (constructor created)) as Hc.
  unfold checkLimit. rewrite Hreq, Hc, filter_all.
  2:{ intros t Ht. apply Z.ltb_lt.
      apply Hwin; apply in_or_app; [now left|right; now left]. }
  rewrite Hlen. reflexivity.
Qed.

(** C10.  Before any [checkLimit()] call, [getMetrics()] of a fresh
    limiter reports no request at all, the full ceiling of 1000 as
    remaining, and the clock reading of the construction as
    [lastRequestTime]. *)
Theorem fresh_getMetrics (created : Z) :
  getMetrics (constructor created) =
  {| snap_totalRequests := 0;
     snap_requestsInLastHour := 0;
     snap_averageRequestTime := 0;
     snap_queueLength := 0;
     snap_lastRequestTime := created;
     snap_remainingRequests := 1000 |}.
Proof. reflexivity. Qed.

(** *** The guarantee and the counters *)

Lemma filter_length_le {A} (f g : A -> bool) (l : list A) :
  (forall x, In x l -> f x = true -> g x = true) ->
  (length (filter f l) <= length (filter g l))%nat.
Proof.
  induction l as [|a l IH]; intro H; [apply Nat.le_refl|].
  cbn [filter].
  assert (IH' : (length (filter f l) <= length (filter g l))%nat).
  { apply IH. intros x Hx. apply H. now right. }
  destruct (f a) eqn:Ef.
  - rewrite (H a (or_introl eq_refl) Ef). cbn [length]. lia.
  - destruct (g a); cbn [length]; lia.
Qed.

(** What the call at [now] does to a run: the admitted timestamps gain
    [now] exactly when fewer than 1000 of the recorded ones are kept. *)
Lemma run_snoc_admitted created clock now :
  let r := run (constructor created) clock in
  snd (run (constructor created) (clock ++ [now])) =
  if Z.of_nat (length (filter (in_window now) (requests (fst r)))) >=? 1000
  then snd r else snd r ++ [now].
Proof.
  cbv zeta. rewrite run_snoc.
  pose proof (run_requestsPerHour clock (constructor created)) as Hc.
  destruct (run (constructor created) clock) as [s adm].
  cbn [fst snd] in *. unfold admit_step, checkLimit. cbn [fst snd].
  rewrite Hc. cbn [requestsPerHour constructor].
  now destruct (_ >=? 1000).
Qed.

(** Under a non-decreasing clock, pruning the window at [now] keeps what
    pruning the admitted timestamps at [now] keeps. *)
Lemma run_prune created clock now :
  StronglySorted Z.le (clock ++ [now]) ->
  let r := run (constructor created) clock in
  filter (in_window now) (requests (fst r)) = filter (in_window now) (snd r).
Proof.
  intros Hs r.
  apply StronglySorted_snoc_inv in Hs. destruct Hs as [Hs Hle].
  destruct (run_invariant created clock Hs) as (Hin & _ & Hreq).
  fold r in Hin, Hreq. rewrite Hreq.
  destruct clock as [|c0 clock'] using rev_ind.
  - destruct (snd r) as [|a adm]; [reflexivity|].
    destruct (Hin a (or_introl eq_refl)).
  - rewrite last_last. apply prune_prune.
    rewrite Forall_forall in Hle. apply Hle.
    apply in_or_app. right. now left.
Qed.

(** X1.  The guarantee of the limiter.  Under a non-decreasing clock, of the
    calls admitted so far at most 1000 have their timestamp in any one
    interval of 3,600,000 ms: those [t] with [T - 3600000 < t <= T],
    whatever [T]. *)
Theorem at_most_ceiling_per_hour (created : Z) (clock : list Z) :
  Sorted Z.le clock ->
  forall T : Z,
  (length (filter (within_hour T) (snd (run (constructor created) clock)))
   <= 1000)%nat.
Proof.
  intro Hs.
  assert (Hss : StronglySorted Z.le clock).
  { apply Sorted_StronglySorted; [|exact Hs]. intros x y z. apply Z.le_trans. }
  clear Hs. induction clock as [|now clock IH] using rev_ind; intro T.
  - cbn. lia.
  - pose proof (run_prune created clock now Hss) as Hprune. cbv zeta in Hprune.
    rewrite run_snoc_admitted. cbv zeta. rewrite Hprune.
    apply StronglySorted_snoc_inv in Hss. destruct Hss as [Hss Hle].
    specialize (IH Hss).
    destruct (Z.of_nat _ >=? 1000) eqn:E; [apply IH|].
    rewrite filter_app, length_app. cbn [filter].
    destruct (within_hour T now) eqn:Ew; [|cbn [length]; rewrite Nat.add_0_r; apply IH].
    cbn [length].
    assert (length (filter (within_hour T) (snd (run (constructor created) clock)))
            <= length (filter (in_window now) (snd (run (constructor created) clock))))%nat.
    { apply filter_length_le. intros x _ Hx.
      unfold within_hour, in_window in *.
      apply andb_true_iff in Ew, Hx. destruct Ew as [_ Ew], Hx as [Hx _].
      apply Z.leb_le in Ew. apply Z.ltb_lt in Hx. apply Z.ltb_lt. lia. }
    rewrite Z.geb_leb in E. apply Z.leb_gt in E. lia.
Qed.

Lemma at_most_ceiling_per_hour_witness :
  (length (filter (within_hour 3600006%Z)
             (snd (run (constructor 0%Z) [5; 7; 3600006]%Z)))
   <= 1000)%nat.
Proof.
  apply (fun H => at_most_ceiling_per_hour 0 [5; 7; 3600006] H 3600006).
  repeat constructor; lia.
Defined.

(** X3.  The counters of a limiter reached from its construction, under any
    clock: [totalRequests] counts the admitted calls, the window and
    [requestsInLastHour] never exceed 1000, so that [getMetrics()] never
    reports a negative [remainingRequests], and [lastRequestTime] is the
    timestamp of the last admitted call (of the construction, before the
    first). *)
Theorem run_metrics (created : Z) (clock : list Z) :
  let s := fst (run (constructor created) clock) in
  let admitted := snd (run (constructor created) clock) in
  snap_totalRequests (getMetrics s) = Z.of_nat (length admitted) /\
  (length (requests s) <= 1000)%nat /\
  0 <= snap_requestsInLastHour (getMetrics s) <= 1000 /\
  0 <= snap_remainingRequests (getMetrics s) <= 1000 /\
  snap_lastRequestTime (getMetrics s) = last admitted created.
Proof.
  cbv zeta. induction clock as [|now clock IH] using rev_ind.
  - cbn. repeat split; lia.
  - rewrite run_snoc.
    pose proof (run_requestsPerHour clock (constructor created)) as Hc.
    destruct (run (constructor created) clock) as [s adm].
    cbn [fst snd] in *. destruct IH as (Ht & Hw & Hh & Hr & Hl).
    unfold getMetrics in *. cbn [snap_totalRequests snap_requestsInLastHour
      snap_remainingRequests snap_lastRequestTime] in *.
    cbn [requestsPerHour constructor] in Hc. rewrite Hc in Hr.
    unfold admit_step, checkLimit. cbn [fst snd]. rewrite Hc.
    pose proof (filter_length_le (in_window now) (fun _ => true) (requests s)
                  (fun _ _ _ => eq_refl)) as Hf.
    rewrite (forallb_filter_id (fun _ : Z => true)) in Hf
      by (apply forallb_forall; reflexivity).
    destruct (Z.of_nat _ >=? 1000) eqn:E;
      cbn [fst snd requests metrics requestsPerHour totalRequests
           requestsInLastHour lastRequestTime].
    + repeat split; try lia.
    + rewrite Z.geb_leb in E. apply Z.leb_gt in E.
      rewrite !length_app, last_last. cbn [length].
      repeat split; lia.
Qed.

(** X4.  After an idle hour the limiter admits again: when every clock
    reading of the earlier calls is at least 3,600,000 ms before [now],
    the call at [now] is admitted and the window holds [now] alone. *)
Theorem admitted_after_idle_hour (created : Z) (clock : list Z) (now : Z) :
  (forall t, In t clock -> 3600000 <= now - t) ->
  let s := fst (run (constructor created) clock) in
  fst (checkLimit now s) = Normal tt /\
  requests (snd (checkLimit now s)) = [now] /\
  snap_remainingRequests (getMetrics (snd (checkLimit now s))) = 999.
Proof.
  intros Hidle s.
  assert (Hincl : incl (requests s) clock).
  { unfold s. clear Hidle. induction clock as [|t clock IH] using rev_ind.
    - apply incl_refl.
    - rewrite run_snoc. unfold admit_step, checkLimit.
      destruct (run (constructor created) clock) as [s0 adm].
      cbn [fst snd] in *.
      destruct (Z.of_nat _ >=? requestsPerHour s0); cbn [fst snd requests].
      + intros x Hx. apply filter_In in Hx. apply in_or_app. left.
        apply IH. tauto.
      + intros x Hx. apply in_app_or in Hx. apply in_or_app.
        destruct Hx as [Hx|Hx]; [left|now right].
        apply filter_In in Hx. apply IH. tauto. }
  assert (Hempty : filter (in_window now) (requests s) = []).
  { destruct (filter (in_window now) (requests s)) as [|x l] eqn:E; [reflexivity|].
    assert (Hx : In x (filter (in_window now) (requests s)))
      by (rewrite E; now left).
    apply filter_In in Hx. destruct Hx as [Hx Hw].
    apply Hincl, Hidle in Hx. unfold in_window in Hw.
    apply Z.ltb_lt in Hw. lia. }
  assert (Hc : requestsPerHour s = 1000)
    by (unfold s; now rewrite run_requestsPerHour).
  unfold checkLimit, getMetrics. rewrite Hempty, Hc. cbn. repeat split.
Qed.

Lemma admitted_after_idle_hour_witness :
  let s := fst (run (constructor 0) [1; 2; 3]) in
  fst (checkLimit 3600003 s) = Normal tt /\
  requests (snd (checkLimit 3600003 s)) = [3600003] /\
  snap_remainingRequests (getMetrics (snd (checkLimit 3600003 s))) = 999.
Proof.
  apply (admitted_after_idle_hour 0 [1; 2; 3] 3600003).
  intros t Ht. cbn in Ht. lia.
Defined.

Lemma ceiling_reached_witness :
  snd (run (constructor 0) (map Z.of_nat (seq 0 1000))) =
    map Z.of_nat (seq 0 1000) /\
  fst (checkLimit 1000 (fst (run (constructor 0) (map Z.of_nat (seq 0 1000))))) =
    Throw rate_limit_exceeded.
Proof.
  apply (ceiling_reached 0 (map Z.of_nat (seq 0 1000)) 1000).
  - now rewrite length_map, length_seq.
  - assert (Hb : forall x, In x (map Z.of_nat (seq 0 1000) ++ [1000]) ->
                           0 <= x <= 1000).
    { intros x Hx. apply in_app_or in Hx. destruct Hx as [Hx|[<-|[]]]; [|lia].
      apply in_map_iff in Hx. destruct Hx as (n & <- & Hn).
      apply in_seq in Hn. lia. }
    intros a b Ha Hb'. apply Hb in Ha, Hb'. lia.
Defined.

End RateLimiterFacts.

Module QueryFacts.

(** *** Strings and [split] *)

Lemma str_eqb_eq a b : str_eqb a b = true <-> a = b.
Proof.
  revert b. induction a as [|x a IH]; intros [|y b]; simpl;
    split; try congruence; try discriminate.
  - intro H. apply andb_true_iff in H. destruct H as [H1 H2].
    apply N.eqb_eq in H1. apply IH in H2. congruence.
  - intro H. injection H as -> ->. rewrite N.eqb_refl. simpl. now apply IH.
Qed.

Lemma str_eqb_refl a : str_eqb a a = true.
Proof. now apply str_eqb_eq. Qed.

Lemma str_eqb_neq a b : str_eqb a b = false <-> a <> b.
Proof.
  split.
  - intros H E. apply str_eqb_eq in E. congruence.
  - intro H. destruct (str_eqb a b) eqn:E; [|reflexivity].
    apply str_eqb_eq in E. contradiction.
Qed.

Lemma split_colon_cons part : exists k rest, split_colon part = k :: rest.
Proof.
  destruct part as [|c part]; simpl; [eauto|].
  destruct (N.eqb c colon); [eauto|].
  destruct (split_colon part); eauto.
Qed.

Lemma part_key_no_colon part : includes_colon (part_key part) = false.
Proof.
  unfold part_key, includes_colon.
  induction part as [|c part IH]; cbn [split_colon]; [reflexivity|].
  destruct (N.eqb c colon) eqn:E; [reflexivity|].
  destruct (split_colon part) as [|seg segs]; cbn [key_of hd existsb] in *;
    rewrite N.eqb_sym, E; [reflexivity|exact IH].
Qed.

Lemma split_colon_bare part :
  includes_colon part = false -> split_colon part = [part].
Proof.
  unfold includes_colon.
  induction part as [|c part IH]; cbn [split_colon existsb]; [reflexivity|].
  rewrite N.eqb_sym. destruct (N.eqb c colon); cbn [orb]; [discriminate|].
  intro H. now rewrite (IH H).
Qed.

Lemma split_colon_colon part :
  includes_colon part = true -> exists k v rest, split_colon part = k :: v :: rest.
Proof.
  unfold includes_colon.
  induction part as [|c part IH]; cbn [split_colon existsb]; [discriminate|].
  rewrite N.eqb_sym. destruct (N.eqb c colon); cbn [orb].
  - intros _. destruct (split_colon_cons part) as (k & rest & ->). eauto.
  - intro H. destruct (IH H) as (k & v & rest & ->). eauto.
Qed.

Lemma part_value_bare part : is_bare part = true -> part_value part = None /\ part_key part = part.
Proof.
  unfold is_bare, part_value, part_key. intro H.
  apply negb_true_iff in H. now rewrite (split_colon_bare part H).
Qed.

Lemma part_value_colon part :
  is_bare part = false -> exists v, part_value part = Some v.
Proof.
  unfold is_bare, part_value. intro H. apply negb_false_iff in H.
  destruct (split_colon_colon part H) as (k & v & rest & ->). simpl. eauto.
Qed.

Lemma parsePriorityFilter_string s :
  exists p, parsePriorityFilter (Some s) = Normal p.
Proof.
  unfold parsePriorityFilter.
  destruct (negb (isNaN s)).
  - destruct (parseInt10 s) as [n|]; [|eauto].
    destruct ((n >=? 0) && (n <=? 4)); [|eauto].
    destruct (n =? 2); eauto.
  - destruct (str_eqb _ (lit "high")); [eauto|].
    destruct (PRIORITY_MAP _); eauto.
Qed.


Lemma loop_body_spec st part :
  loop_body st part =
  if is_bare_priority part then Throw toLowerCase_of_undefined
  else Normal (mkLoop (step_filter part (l_filter st))
                 (is_me part || l_isMyIssuesQuery st)
                 (or_else (priority_of part) (l_priorityFilter st))
                 (is_state part || l_hasExplicitStateFilter st)).
Proof.
  unfold loop_body, is_bare_priority.
  change (key_of (split_colon part)) with (part_key part).
  change (cleanValue_of (value_of (split_colon part))) with (part_value part).
  destruct (str_eqb part (lit "priority")) eqn:Hbp.
  - apply str_eqb_eq in Hbp. subst. reflexivity.
  - assert (Hv : part_key part = lit "priority" ->
                 exists s, part_value part = Some s).
    { intro Hk. destruct (is_bare part) eqn:Hb.
      - apply part_value_bare in Hb. destruct Hb as [_ Hb].
        rewrite Hb in Hk. apply str_eqb_neq in Hbp. contradiction.
      - now apply part_value_colon. }
    pose proof (part_key_no_colon part) as Hc.
    unfold step_filter, is_me, is_state, priority_of, state_of, team_of,
      label_of, free_text_of, is_handled, parseQueryPart.
    revert Hv Hc.
    generalize (part_value part) as v. generalize (part_key part) as k.
    intros k v Hv Hc.
    destruct st as [[fs ft fl fo] my pf ex].
    cbn [l_filter l_isMyIssuesQuery l_priorityFilter l_hasExplicitStateFilter
         f_state f_team f_labels f_or handled_keys map existsb].
    destruct (str_eqb k (lit "assignee")) eqn:E1.
    { apply str_eqb_eq in E1. subst k. reflexivity. }
    destruct (str_eqb k (lit "priority")) eqn:E2.
    { apply str_eqb_eq in E2. destruct (Hv E2) as [s ->]. subst k.
      destruct (parsePriorityFilter_string s) as [p ->]. reflexivity. }
    destruct (str_eqb k (lit "state")) eqn:E3.
    { apply str_eqb_eq in E3. subst k. reflexivity. }
    destruct (str_eqb k (lit "status")) eqn:E4.
    { apply str_eqb_eq in E4. subst k. reflexivity. }
    destruct (str_eqb k (lit "team")) eqn:E5.
    { apply str_eqb_eq in E5. subst k. reflexivity. }
    destruct (str_eqb k (lit "label")) eqn:E6.
    { apply str_eqb_eq in E6. subst k. reflexivity. }
    rewrite Hc. reflexivity.
Qed.


Lemma or_else_assoc {A} (a b c : option A) :
  or_else a (or_else b c) = or_else (or_else a b) c.
Proof. now destruct a. Qed.

Lemma or_else_None {A} (a : option A) : or_else a None = a.
Proof. now destruct a. Qed.

Lemma loop_spec parts : forall st,
  loop parts st =
  if existsb is_bare_priority parts then Throw toLowerCase_of_undefined
  else Normal
    (mkLoop
       (mkFilter
          (match last_of state_of parts with
           | Some v => mkState None (Some v)
           | None => f_state (l_filter st)
           end)
          (or_else (last_of team_of parts) (f_team (l_filter st)))
          (or_else (last_of label_of parts) (f_labels (l_filter st)))
          (or_else (last_of free_text_of parts) (f_or (l_filter st))))
       (existsb is_me parts || l_isMyIssuesQuery st)
       (or_else (last_of priority_of parts) (l_priorityFilter st))
       (existsb is_state parts || l_hasExplicitStateFilter st)).
Proof.
  induction parts as [|part parts IH]; intro st.
  - destruct st as [[fs ft fl fo] my pf ex]. reflexivity.
  - cbn [loop existsb last_of]. rewrite loop_body_spec.
    destruct (is_bare_priority part); [reflexivity|].
    rewrite IH. cbn [orb].
    destruct (existsb is_bare_priority parts); [reflexivity|].
    cbn [l_filter l_isMyIssuesQuery l_priorityFilter l_hasExplicitStateFilter].
    unfold step_filter. cbn [f_state f_team f_labels f_or].
    rewrite !or_else_assoc.
    replace (existsb is_me parts || (is_me part || l_isMyIssuesQuery st))
      with (is_me part || existsb is_me parts || l_isMyIssuesQuery st)
      by now destruct (existsb is_me parts), (is_me part).
    replace (existsb is_state parts || (is_state part || l_hasExplicitStateFilter st))
      with (is_state part || existsb is_state parts || l_hasExplicitStateFilter st)
      by now destruct (existsb is_state parts), (is_state part).
    destruct (last_of state_of parts), (state_of part); reflexivity.
Qed.

Lemma last_of_state_of parts :
  last_of state_of parts = None <-> existsb is_state parts = false.
Proof.
  induction parts as [|part parts IH]; cbn [last_of existsb]; [tauto|].
  change (state_of part)
    with (if is_state part then Some (part_value part) else None).
  destruct (is_state part); cbn [orb].
  - destruct (last_of state_of parts); split; discriminate.
  - rewrite or_else_None. exact IH.
Qed.

Lemma parseQuery_spec query :
  parseQuery query =
  if existsb is_bare_priority (queryParts query)
  then Throw toLowerCase_of_undefined
  else Normal (compiled (queryParts query)).
Proof.
  unfold parseQuery. rewrite loop_spec.
  destruct (existsb is_bare_priority (queryParts query)); [reflexivity|].
  cbn [l_hasExplicitStateFilter l_filter l_isMyIssuesQuery l_priorityFilter
       initial_filter f_state f_team f_labels f_or].
  rewrite !or_else_None, !orb_false_r. unfold compiled.
  destruct (existsb is_state (queryParts query)) eqn:E.
  - destruct (last_of state_of (queryParts query)) eqn:L.
    + reflexivity.
    + apply last_of_state_of in L. congruence.
  - apply last_of_state_of in E. rewrite E. reflexivity.
Qed.

(** *** Consequences of the closed form *)

(** X5.  [parseQuery] returns exactly when no part is the bare word
    [priority]. *)
Lemma parseQuery_returns_iff query :
  (exists p, parseQuery query = Normal p) <->
  ~ In (lit "priority") (queryParts query).
Proof.
  rewrite parseQuery_spec.
  destruct (existsb is_bare_priority (queryParts query)) eqn:E.
  - split.
    + intros [p H]. discriminate H.
    + intro H. exfalso. apply H.
      apply existsb_exists in E. destruct E as (part & Hin & Hp).
      apply str_eqb_eq in Hp. now subst part.
  - split; [|eauto]. intros _ Hin.
    assert (existsb is_bare_priority (queryParts query) = true) as E'.
    { apply existsb_exists. exists (lit "priority"). now split. }
    congruence.
Qed.

Lemma last_of_none {A} (f : jsstring -> option A) parts :
  (forall p, In p parts -> f p = None) -> last_of f parts = None.
Proof.
  induction parts as [|part parts IH]; intro H; [reflexivity|].
  cbn [last_of]. rewrite IH by (intros; apply H; now right).
  apply H. now left.
Qed.

Lemma last_of_last {A} (f : jsstring -> option A) pre part post x :
  f part = Some x -> (forall p, In p post -> f p = None) ->
  last_of f (pre ++ part :: post) = Some x.
Proof.
  intros Hp Hpost.
  induction pre as [|a pre IH]; cbn [app last_of].
  - now rewrite (last_of_none f post Hpost), Hp.
  - now rewrite IH.
Qed.

(** *** [parsePriorityFilter] on the words and the digits *)

Lemma toLowerCase_nil_inv s : toLowerCase s = [] -> s = [].
Proof.
  destruct s as [|c s]; [reflexivity|].
  unfold toLowerCase. cbn [flat_map]. unfold lower_unit.
  destruct (in_range 65%N 90%N c); [discriminate|].
  destruct (in_range 192%N 222%N c && negb (N.eqb c 215%N)); [discriminate|].
  destruct (N.eqb c 304%N); [discriminate|].
  destruct (N.eqb c 8490%N); discriminate.
Qed.

Lemma toLowerCase_cons_inv c s x w :
  toLowerCase (c :: s) = x :: w ->
  x <> 107%N -> hd 0%N w <> 775%N ->
  (c = x \/ c = (x - 32)%N) /\ toLowerCase s = w.
Proof.
  unfold toLowerCase. cbn [flat_map]. unfold lower_unit.
  intros H Hk Hw.
  destruct (in_range 65%N 90%N c).
  { injection H as H1 H2. split; [right; lia|exact H2]. }
  destruct (in_range 192%N 222%N c && negb (N.eqb c 215%N)).
  { injection H as H1 H2. split; [right; lia|exact H2]. }
  destruct (N.eqb c 304%N).
  { injection H as H1 H2. subst w. now contradiction Hw. }
  destruct (N.eqb c 8490%N).
  { injection H as H1 H2. congruence. }
  injection H as H1 H2. split; [now left|exact H2].
Qed.

Ltac lower_cases H :=
  repeat match type of H with
  | toLowerCase ?s = [] => apply toLowerCase_nil_inv in H; subst s
  | toLowerCase ?s = _ :: _ =>
      let c := fresh "c" in
      destruct s as [|c s]; [discriminate H|];
      apply toLowerCase_cons_inv in H;
      [destruct H as [[?|?] H]; subst c | discriminate | cbn; discriminate]
  end.

Lemma priority_word_no s :
  toLowerCase s = lit "no" ->
  parsePriorityFilter (Some s) = Normal (Some (PEq (VNumber 0))).
Proof.
  intro H. change (lit "no") with [110; 111]%N in H.
  lower_cases H; reflexivity.
Qed.


Lemma priority_word_urgent s :
  toLowerCase s = lit "urgent" ->
  parsePriorityFilter (Some s) = Normal (Some (PEq (VNumber 1))).
Proof.
  intro H. change (lit "urgent") with [117; 114; 103; 101; 110; 116]%N in H.
  lower_cases H; reflexivity.
Qed.

Lemma priority_word_high s :
  toLowerCase s = lit "high" ->
  parsePriorityFilter (Some s) = Normal (Some (PIn [1; 2])).
Proof.
  intro H. change (lit "high") with [104; 105; 103; 104]%N in H.
  lower_cases H; reflexivity.
Qed.

Lemma priority_word_medium s :
  toLowerCase s = lit "medium" ->
  parsePriorityFilter (Some s) = Normal (Some (PEq (VNumber 3))).
Proof.
  intro H. change (lit "medium") with [109; 101; 100; 105; 117; 109]%N in H.
  lower_cases H; reflexivity.
Qed.

Lemma priority_word_low s :
  toLowerCase s = lit "low" ->
  parsePriorityFilter (Some s) = Normal (Some (PEq (VNumber 4))).
Proof.
  intro H. change (lit "low") with [108; 111; 119]%N in H.
  lower_cases H; reflexivity.
Qed.

Lemma priority_digit (n : Z) :
  0 <= n <= 4 ->
  parsePriorityFilter (Some (decimal (Z.to_nat n))) =
  Normal (Some (if n =? 2 then PIn [1; 2] else PEq (VNumber n))).
Proof.
  intro H.
  assert (n = 0 \/ n = 1 \/ n = 2 \/ n = 3 \/ n = 4) as Hn by lia.
  destruct Hn as [->|[->|[->|[->| ->]]]]; reflexivity.
Qed.


Lemma lower_unit_no_upper c :
  forallb (fun x => negb (in_range 65%N 90%N x)) (lower_unit c) = true.
Proof.
  unfold lower_unit.
  destruct (in_range 65%N 90%N c) eqn:E1.
  { cbn [forallb]. unfold in_range in *.
    apply andb_true_iff in E1. destruct E1 as [A B].
    apply N.leb_le in A, B.
    rewrite andb_true_r. apply negb_true_iff, andb_false_iff.
    right. apply N.leb_gt. lia. }
  destruct (in_range 192%N 222%N c && negb (N.eqb c 215%N)) eqn:E2.
  { cbn [forallb]. unfold in_range in *.
    apply andb_true_iff in E2. destruct E2 as [E2 _].
    apply andb_true_iff in E2. destruct E2 as [A B].
    apply N.leb_le in A, B.
    rewrite andb_true_r. apply negb_true_iff, andb_false_iff.
    right. apply N.leb_gt. lia. }
  destruct (N.eqb c 304%N); [reflexivity|].
  destruct (N.eqb c 8490%N); [reflexivity|].
  cbn [forallb]. now rewrite E1.
Qed.

Lemma toLowerCase_no_upper s :
  forallb (fun x => negb (in_range 65%N 90%N x)) (toLowerCase s) = true.
Proof.
  unfold toLowerCase.
  induction s as [|c s IH]; [reflexivity|].
  cbn [flat_map]. rewrite forallb_app, IH, lower_unit_no_upper. reflexivity.
Qed.

(** The only members of [Object.prototype] that a lower-cased key can
    name. *)
Lemma PRIORITY_MAP_inherited s k :
  PRIORITY_MAP (toLowerCase s) = Some (VInherited k) ->
  k = lit "constructor" \/ k = lit "__proto__".
Proof.
  unfold PRIORITY_MAP.
  repeat match goal with
  | |- context [if str_eqb ?a ?b then _ else _] =>
      destruct (str_eqb a b); [discriminate|]
  end.
  pose proof (toLowerCase_no_upper s) as Hup.
  destruct (existsb _ object_prototype_keys) eqn:E; [|discriminate].
  intro H. injection H as <-.
  apply existsb_exists in E. destruct E as (key & Hin & Hk).
  apply str_eqb_eq in Hk. rewrite Hk in *.
  unfold object_prototype_keys in Hin. cbn [map In] in Hin.
  repeat (destruct Hin as [<-|Hin]; [first [now left | now right | discriminate Hup]|]).
  destruct Hin.
Qed.

(** X18.  A value that is not numeric and, in lower case, is none of the five
    words nor [constructor] or [__proto__] gives no priority filter. *)
Lemma priority_other_word s :
  isNaN s = true ->
  ~ In (toLowerCase s)
      (map lit ["no"; "urgent"; "high"; "medium"; "low";
                "constructor"; "__proto__"]%string) ->
  parsePriorityFilter (Some s) = Normal None.
Proof.
  intros Hnan Hnot. unfold parsePriorityFilter. rewrite Hnan. cbn [negb].
  cbn [map In] in Hnot.
  destruct (str_eqb (toLowerCase s) (lit "high")) eqn:Eh.
  { apply str_eqb_eq in Eh. exfalso. apply Hnot. rewrite Eh. auto 10. }
  destruct (PRIORITY_MAP (toLowerCase s)) as [[n|k]|] eqn:Em; [| |reflexivity].
  - exfalso. unfold PRIORITY_MAP in Em.
    repeat match type of Em with
    | context [if str_eqb ?a ?b then _ else _] =>
        let E := fresh "E" in
        destruct (str_eqb a b) eqn:E;
          [apply str_eqb_eq in E; apply Hnot; rewrite E; auto 10|]
    end.
    destruct (existsb _ _); discriminate Em.
  - exfalso. pose proof Em as Em'.
    apply PRIORITY_MAP_inherited in Em'.
    assert (toLowerCase s = k) as Hk.
    { unfold PRIORITY_MAP in Em.
      repeat match type of Em with
      | context [if str_eqb ?a ?b then _ else _] =>
          destruct (str_eqb a b); [discriminate Em|]
      end.
      destruct (existsb _ _); [|discriminate Em]. congruence. }
    apply Hnot. rewrite Hk. destruct Em' as [->| ->]; auto 10.
Qed.

Lemma no_bare_priority parts :
  ~ In (lit "priority") parts -> existsb is_bare_priority parts = false.
Proof.
  intro H. destruct (existsb is_bare_priority parts) eqn:E; [|reflexivity].
  apply existsb_exists in E. destruct E as (part & Hin & Hp).
  apply str_eqb_eq in Hp. subst part. contradiction.
Qed.

Lemma parseQuery_compiled query :
  ~ In (lit "priority") (queryParts query) ->
  parseQuery query = Normal (compiled (queryParts query)).
Proof. intro H. now rewrite parseQuery_spec, (no_bare_priority _ H). Qed.

(** X9.  The free-text predicate is made of the key of the last part whose
    key has no [case], with or without a colon in the part. *)
Lemma free_text_last_unhandled query pre part post :
  queryParts query = pre ++ part :: post ->
  ~ In (lit "priority") (queryParts query) ->
  is_handled (part_key part) = false ->
  (forall p, In p post -> is_handled (part_key p) = true) ->
  option_map (fun r => f_or (p_filter r)) (normal_value (parseQuery query)) =
  Some (Some [TitleContains (part_key part); DescriptionContains (part_key part)]).
Proof.
  intros Hparts Hnp Hun Hpost.
  rewrite (parseQuery_compiled _ Hnp), Hparts. cbn.
  f_equal. apply last_of_last.
  - unfold free_text_of. now rewrite Hun.
  - intros p Hp. unfold free_text_of. now rewrite (Hpost p Hp).
Qed.

(** X10.  When every part has a key with a [case], there is no free-text
    predicate. *)
Lemma free_text_absent query :
  ~ In (lit "priority") (queryParts query) ->
  (forall p, In p (queryParts query) -> is_handled (part_key p) = true) ->
  option_map (fun r => f_or (p_filter r)) (normal_value (parseQuery query)) =
  Some None.
Proof.
  intros Hnp Hall. rewrite (parseQuery_compiled _ Hnp). cbn.
  f_equal. apply last_of_none.
  intros p Hp. unfold free_text_of. now rewrite (Hall p Hp).
Qed.

(** X11.  Without a part of key [state] or [status] the state predicate is the
    default exclusion. *)
Lemma state_default query :
  ~ In (lit "priority") (queryParts query) ->
  (forall p, In p (queryParts query) -> is_state p = false) ->
  option_map (fun r => f_state (p_filter r)) (normal_value (parseQuery query)) =
  Some default_state.
Proof.
  intros Hnp Hall. rewrite (parseQuery_compiled _ Hnp). cbn.
  rewrite (last_of_none state_of); [reflexivity|].
  intros p Hp. specialize (Hall p Hp). unfold state_of.
  unfold is_state in Hall. now rewrite Hall.
Qed.

(** X12.  With one, the predicate is the name equality of the last such part
    and the default exclusion is gone. *)
Lemma state_explicit query pre part post :
  queryParts query = pre ++ part :: post ->
  ~ In (lit "priority") (queryParts query) ->
  is_state part = true ->
  (forall p, In p post -> is_state p = false) ->
  option_map (fun r => f_state (p_filter r)) (normal_value (parseQuery query)) =
  Some (mkState None (Some (part_value part))).
Proof.
  intros Hparts Hnp Hst Hpost.
  rewrite (parseQuery_compiled _ Hnp), Hparts. cbn.
  rewrite (last_of_last state_of pre part post (part_value part)); [reflexivity| |].
  - unfold state_of. unfold is_state in Hst. now rewrite Hst.
  - intros p Hp. specialize (Hpost p Hp). unfold state_of.
    unfold is_state in Hpost. now rewrite Hpost.
Qed.

(** X13.  A part [assignee:@me] sets the flag. *)
Lemma me_token query :
  In (lit "assignee:@me") (queryParts query) ->
  ~ In (lit "priority") (queryParts query) ->
  option_map isMyIssuesQuery (normal_value (parseQuery query)) = Some true.
Proof.
  intros Hin Hnp. rewrite (parseQuery_compiled _ Hnp). cbn.
  f_equal. apply existsb_exists. exists (lit "assignee:@me"). now split.
Qed.

(** The examples of the specification. *)
Example compile_me_high :
  parseQuery (lit "assignee:@me priority:high") =
  Normal (mkParsed initial_filter true (Some (PIn [1; 2]))).
Proof. reflexivity. Qed.

Example compile_priority_2_and_high :
  option_map priorityFilter (normal_value (parseQuery (lit "priority:2"))) =
    Some (Some (PIn [1; 2])) /\
  option_map priorityFilter (normal_value (parseQuery (lit "priority:high"))) =
    Some (Some (PIn [1; 2])).
Proof. split; reflexivity. Qed.

Example compile_status_done_bug :
  parseQuery (lit "status:Done bug") =
  Normal (mkParsed
            (mkFilter (mkState None (Some (Some (lit "Done")))) None None
               (Some [TitleContains (lit "bug"); DescriptionContains (lit "bug")]))
            false None).
Proof. reflexivity. Qed.

Example compile_team_label_word :
  parseQuery (lit "team:Core label:bug urgent-fix") =
  Normal (mkParsed
            (mkFilter default_state (Some (Some (lit "Core")))
               (Some (Some (lit "bug")))
               (Some [TitleContains (lit "urgent-fix");
                      DescriptionContains (lit "urgent-fix")]))
            false None).
Proof. reflexivity. Qed.

(** *** The parts of a query *)

Lemma nonspace_run_le l : (nonspace_run l <= length l)%nat.
Proof.
  induction l as [|c l IH]; cbn [nonspace_run length]; [lia|].
  destruct (is_space c); lia.
Qed.

Lemma re_alt1_rest_quote l n :
  re_alt1_rest l = Some n -> has_quote (firstn n l) = true.
Proof.
  unfold has_quote. revert n.
  induction l as [|c l IH]; intros n; cbn [re_alt1_rest]; [discriminate|].
  destruct (if is_space c then None else re_alt1_rest l) as [m|] eqn:E.
  - intro H. injection H as <-. cbn [firstn existsb].
    destruct (is_space c); [discriminate|].
    rewrite (IH m E). apply orb_true_r.
  - unfold re_quoted_value.
    destruct l as [|c2 [|c3 l]]; try discriminate.
    destruct (N.eqb c colon && N.eqb c2 dquote && negb (N.eqb c3 dquote)) eqn:Eq;
      [|discriminate].
    destruct (re_unquoted_then_quote l) as [k|]; [|discriminate].
    intro H. injection H as <-. cbn [Nat.add firstn existsb].
    apply andb_true_iff in Eq. destruct Eq as [Eq _].
    apply andb_true_iff in Eq. destruct Eq as [_ Eq].
    apply N.eqb_eq in Eq. subst c2. rewrite N.eqb_refl.
    now rewrite orb_true_r.
Qed.

Lemma re_alt1_quote l n :
  re_alt1 l = Some n -> has_quote (firstn n l) = true.
Proof.
  destruct l as [|c l]; cbn [re_alt1]; [discriminate|].
  destruct (is_space c); [discriminate|].
  destruct (re_alt1_rest l) as [m|] eqn:E; [|discriminate].
  intro H. injection H as <-. unfold has_quote. cbn [firstn existsb].
  apply re_alt1_rest_quote in E. unfold has_quote in E. rewrite E.
  apply orb_true_r.
Qed.

Lemma re_alt2_rest_run l n :
  re_alt2_rest l = Some n -> nonspace_run l = n.
Proof.
  revert n. induction l as [|c l IH]; intros n; cbn [re_alt2_rest]; [discriminate|].
  destruct (is_space c) eqn:Es; cbn [orb].
  - unfold re_colon_value. destruct (N.eqb c colon) eqn:Ec; [|discriminate].
    apply N.eqb_eq in Ec. subst c. discriminate Es.
  - destruct (N.eqb c colon) eqn:Ec.
    + unfold re_colon_value. rewrite Ec. cbn [nonspace_run]. rewrite Es.
      destruct (nonspace_run l); [discriminate|]. intro H. now injection H.
    + destruct (re_alt2_rest l) as [m|] eqn:E.
      * intro H. injection H as <-. cbn [nonspace_run]. rewrite Es.
        now rewrite (IH m eq_refl).
      * unfold re_colon_value. rewrite Ec. discriminate.
Qed.

Lemma re_alt2_run l n : re_alt2 l = Some n -> nonspace_run l = n.
Proof.
  destruct l as [|c l]; cbn [re_alt2]; [discriminate|].
  destruct (is_space c) eqn:Es; cbn [orb]; [discriminate|].
  destruct (N.eqb c colon); [discriminate|].
  destruct (re_alt2_rest l) as [m|] eqn:E; [|discriminate].
  intro H. injection H as <-. cbn [nonspace_run]. rewrite Es.
  now rewrite (re_alt2_rest_run l m E).
Qed.

(** What the pattern matches at the head of a string: a run of
    characters that are not white space, or a piece with a double
    quote; never nothing, and never from a white space on. *)
Lemma re_token_cases l n :
  re_token l = Some n ->
  (0 < n)%nat /\
  (nonspace_run l = n \/ has_quote (firstn n l) = true) /\
  is_space (hd 0%N l) = false.
Proof.
  unfold re_token. intro H.
  assert (Hhd : is_space (hd 0%N l) = false).
  { destruct l as [|c l]; [reflexivity|]. cbn [hd].
    unfold re_alt1, re_alt2, re_alt3 in H. cbn [nonspace_run] in H.
    destruct (is_space c); [discriminate H|reflexivity]. }
  assert (Hrun : nonspace_run l = n -> (0 < n)%nat).
  { intros <-.
    destruct l as [|c l]; [cbn in H; discriminate H|].
    cbn [hd] in Hhd. cbn [nonspace_run]. rewrite Hhd. lia. }
  destruct (re_alt1 l) as [m|] eqn:E1.
  - injection H as ->. apply re_alt1_quote in E1.
    repeat split; auto.
    destruct n; [discriminate E1|lia].
  - destruct (re_alt2 l) as [m|] eqn:E2.
    + injection H as ->. apply re_alt2_run in E2. auto.
    + unfold re_alt3 in H. destruct (nonspace_run l) eqn:E3; [discriminate|].
      injection H as <-. rewrite <- E3 in *. auto.
Qed.

Lemma has_quote_firstn n l : has_quote (firstn n l) = true -> has_quote l = true.
Proof.
  unfold has_quote. revert n. induction l as [|c l IH]; intros [|n]; cbn [firstn existsb];
    try discriminate.
  destruct (N.eqb dquote c); [reflexivity|]. cbn [orb]. apply IH.
Qed.

Lemma re_token_no_quote l : has_quote l = false -> re_token l = re_alt3 l.
Proof.
  intro Hq. unfold re_token.
  destruct (re_alt1 l) as [m|] eqn:E1.
  { apply re_alt1_quote, has_quote_firstn in E1. congruence. }
  destruct (re_alt2 l) as [m|] eqn:E2; [|reflexivity].
  pose proof (re_alt2_run l m E2) as Hrun. unfold re_alt3. rewrite Hrun.
  destruct m; [|reflexivity].
  destruct l as [|c l]; [discriminate E2|]. cbn [re_alt2] in E2.
  destruct (is_space c || N.eqb c colon); [discriminate E2|].
  destruct (re_alt2_rest l); discriminate E2.
Qed.

Lemma match_all_words l : forall k,
  has_quote l = false -> match_all l k = words_from l k.
Proof.
  induction l as [|c l IH]; intros k Hq; [reflexivity|].
  assert (Hq' : has_quote l = false).
  { unfold has_quote in *. cbn [existsb] in Hq.
    now apply orb_false_iff in Hq. }
  cbn [match_all words_from]. destruct k as [|k]; [|now apply IH].
  rewrite (re_token_no_quote _ Hq). unfold re_alt3.
  destruct (nonspace_run (c :: l)) as [|n]; [now apply IH|].
  cbn [Nat.sub]. rewrite Nat.sub_0_r. f_equal. now apply IH.
Qed.

(** X6.  Without a double quote in the query, the parts are the words that
    white space separates. *)
Theorem queryParts_words query :
  has_quote query = false -> queryParts query = words query.
Proof. intro H. now apply match_all_words. Qed.

Lemma queryParts_words_witness :
  queryParts (lit "  team:Core   fix:it bug ") = words (lit "  team:Core   fix:it bug ").
Proof.
  apply (queryParts_words (lit "  team:Core   fix:it bug ")). reflexivity.
Defined.

Lemma nonspace_run_firstn l :
  existsb is_space (firstn (nonspace_run l) l) = false.
Proof.
  induction l as [|c l IH]; [reflexivity|].
  cbn [nonspace_run]. destruct (is_space c) eqn:E; [reflexivity|].
  cbn [firstn existsb]. now rewrite E, IH.
Qed.

Lemma match_all_in part l : forall k,
  In part (match_all l k) ->
  exists pre rest n,
    l = pre ++ rest /\ re_token rest = Some n /\ part = firstn n rest.
Proof.
  induction l as [|c l IH]; intros k Hin; [destruct Hin|].
  cbn [match_all] in Hin.
  assert (Hrec : forall k', In part (match_all l k') ->
            exists pre rest n,
              c :: l = pre ++ rest /\ re_token rest = Some n /\
              part = firstn n rest).
  { intros k' H. destruct (IH k' H) as (pre & rest & n & -> & Ht & Hp).
    exists (c :: pre), rest, n. auto. }
  destruct k as [|k]; [|eauto].
  destruct (re_token (c :: l)) as [n|] eqn:Et; [|eauto].
  destruct Hin as [<-|Hin]; [|eauto].
  exists [], (c :: l), n. auto.
Qed.

(** X7.  Every part is a piece of the query, is not empty, does not start
    with white space, and holds white space only when it holds a double
    quote. *)
Theorem queryParts_pieces query part :
  In part (queryParts query) ->
  (exists pre post, query = pre ++ part ++ post) /\
  part <> [] /\
  is_space (hd 0%N part) = false /\
  (has_quote part = false -> existsb is_space part = false).
Proof.
  intro Hin. apply match_all_in in Hin.
  destruct Hin as (pre & rest & n & -> & Ht & ->).
  destruct (re_token_cases rest n Ht) as (Hn & Hcases & Hhd).
  destruct rest as [|c rest]; [discriminate Ht|].
  destruct n as [|n]; [lia|].
  repeat split.
  - exists pre, (skipn (S n) (c :: rest)). now rewrite firstn_skipn.
  - discriminate.
  - exact Hhd.
  - intro Hq. destruct Hcases as [<-|Hq']; [|congruence].
    apply nonspace_run_firstn.
Qed.

Lemma queryParts_pieces_witness :
  (exists pre post, lit "a:b  c" = pre ++ lit "a:b" ++ post) /\
  lit "a:b" <> [] /\
  is_space (hd 0%N (lit "a:b")) = false /\
  (has_quote (lit "a:b") = false -> existsb is_space (lit "a:b") = false).
Proof.
  apply (queryParts_pieces (lit "a:b  c") (lit "a:b")).
  cbn. now left.
Defined.


Lemma re_alt1_rest_no_colon l : includes_colon l = false -> re_alt1_rest l = None.
Proof.
  unfold includes_colon.
  induction l as [|c l IH]; cbn [existsb re_alt1_rest]; [reflexivity|].
  intro H. apply orb_false_iff in H. destruct H as [Hc Hl].
  rewrite (IH Hl). destruct (is_space c);
    unfold re_quoted_value; destruct l as [|c2 [|c3 l]]; try reflexivity;
    rewrite N.eqb_sym, Hc; reflexivity.
Qed.

Lemma re_unquoted_then_quote_app v rest :
  has_quote v = false ->
  re_unquoted_then_quote (v ++ dquote :: rest) = Some (S (length v)).
Proof.
  unfold has_quote.
  induction v as [|c v IH]; cbn [existsb app re_unquoted_then_quote length].
  - now rewrite N.eqb_refl.
  - intro H. apply orb_false_iff in H. destruct H as [Hc Hv].
    rewrite N.eqb_sym, Hc, (IH Hv). reflexivity.
Qed.

Lemma includes_colon_quoted v :
  includes_colon v = false -> includes_colon (quoted v) = false.
Proof.
  unfold quoted, includes_colon. intro H. cbn [existsb].
  rewrite existsb_app. cbn [existsb].
  apply orb_false_iff. split; [reflexivity|].
  apply orb_false_iff. split; [exact H|reflexivity].
Qed.

Lemma re_alt1_rest_quoted k v :
  existsb is_space k = false ->
  v <> [] -> has_quote v = false -> includes_colon v = false ->
  re_alt1_rest (k ++ colon :: quoted v) = Some (length (k ++ colon :: quoted v)).
Proof.
  intros Hk Hv Hq Hc.
  induction k as [|c k IH]; cbn [app].
  - cbn [re_alt1_rest]. change (is_space colon) with false. cbv iota.
    rewrite (re_alt1_rest_no_colon _ (includes_colon_quoted v Hc)).
    unfold quoted. destruct v as [|c3 v]; [congruence|].
    unfold re_quoted_value. cbn [app]. rewrite !N.eqb_refl.
    unfold has_quote in Hq. cbn [existsb] in Hq.
    apply orb_false_iff in Hq. destruct Hq as [Hq3 Hq].
    rewrite N.eqb_sym, Hq3. cbn [andb negb].
    rewrite (re_unquoted_then_quote_app v [] Hq).
    cbn [option_map length]. rewrite !length_app. cbn [length]. f_equal. lia.
  - cbn [existsb] in Hk. apply orb_false_iff in Hk. destruct Hk as [Hs Hk].
    cbn [re_alt1_rest]. rewrite Hs, (IH Hk). reflexivity.
Qed.

Lemma match_all_past l : forall k, (length l <= k)%nat -> match_all l k = [].
Proof.
  induction l as [|c l IH]; intros k Hk; [reflexivity|].
  cbn [length] in Hk. destruct k as [|k]; [lia|].
  cbn [match_all]. apply IH. lia.
Qed.

(** A key, a colon and a quoted value make one part, white space in the
    value included. *)
Lemma queryParts_quoted k v :
  k <> [] -> existsb is_space k = false ->
  v <> [] -> has_quote v = false -> includes_colon v = false ->
  queryParts (k ++ colon :: quoted v) = [k ++ colon :: quoted v].
Proof.
  intros Hne Hk Hv Hq Hc.
  destruct k as [|c k]; [congruence|].
  cbn [existsb] in Hk. apply orb_false_iff in Hk. destruct Hk as [Hs Hk].
  unfold queryParts. cbn [app match_all]. unfold re_token, re_alt1.
  rewrite Hs, (re_alt1_rest_quoted k v Hk Hv Hq Hc). cbn [option_map].
  rewrite match_all_past by lia.
  f_equal. change (c :: k ++ colon :: quoted v) with ((c :: k) ++ colon :: quoted v).
  apply firstn_all2. cbn [app length]. lia.
Qed.

Lemma split_colon_app k rest :
  includes_colon k = false ->
  split_colon (k ++ colon :: rest) = k :: split_colon rest.
Proof.
  unfold includes_colon.
  induction k as [|c k IH]; cbn [existsb app split_colon].
  - now rewrite N.eqb_refl.
  - intro H. apply orb_false_iff in H. destruct H as [Hc Hk].
    rewrite N.eqb_sym, Hc, (IH Hk). reflexivity.
Qed.

Lemma forallb_rev_eq {A} (f : A -> bool) l : forallb f (rev l) = forallb f l.
Proof.
  induction l as [|a l IH]; [reflexivity|].
  cbn [rev forallb]. rewrite forallb_app, IH. cbn [forallb].
  rewrite andb_true_r. apply andb_comm.
Qed.

Lemma strip_quotes_quoted v :
  forallb (fun c => negb (is_line_terminator c)) v = true ->
  strip_quotes (quoted v) = v.
Proof.
  intro H. unfold quoted, strip_quotes.
  rewrite rev_app_distr. cbn [rev app]. rewrite !N.eqb_refl. cbn [andb].
  rewrite forallb_rev_eq, H. apply rev_involutive.
Qed.

Lemma part_quoted k v :
  includes_colon k = false -> has_quote v = false -> includes_colon v = false ->
  forallb (fun c => negb (is_line_terminator c)) v = true ->
  part_key (k ++ colon :: quoted v) = k /\
  part_value (k ++ colon :: quoted v) = Some v.
Proof.
  intros Hk Hq Hc Hlt. unfold part_key, part_value.
  rewrite (split_colon_app k _ Hk),
    (split_colon_bare _ (includes_colon_quoted v Hc)).
  cbn [key_of hd value_of cleanValue_of option_map].
  now rewrite (strip_quotes_quoted v Hlt).
Qed.

(** X8.  A quoted value reaches the filter whole, white space included and
    quotes removed: [team:Q...Q] and [label:Q...Q] set the name equality
    to what the quotes enclose. *)
Theorem parseQuery_quoted_value (v : jsstring) :
  v <> [] -> has_quote v = false -> includes_colon v = false ->
  forallb (fun c => negb (is_line_terminator c)) v = true ->
  parseQuery (lit "team" ++ colon :: quoted v) =
    Normal (mkParsed (mkFilter default_state (Some (Some v)) None None)
              false None) /\
  parseQuery (lit "label" ++ colon :: quoted v) =
    Normal (mkParsed (mkFilter default_state None (Some (Some v)) None)
              false None).
Proof.
  intros Hv Hq Hc Hlt.
  split; rewrite parseQuery_spec; rewrite queryParts_quoted by
    (first [discriminate | reflexivity | assumption]);
    cbn [existsb orb]; unfold compiled; cbn [last_of existsb];
    unfold free_text_of, state_of, team_of, label_of, priority_of, is_me;
    match goal with
    | |- context [part_key (?k ++ colon :: quoted v)] =>
        destruct (part_quoted k v eq_refl Hq Hc Hlt) as [-> ->]
    end; reflexivity.
Qed.

Lemma parseQuery_quoted_value_witness :
  parseQuery (lit "team" ++ colon :: quoted (lit "Core team")) =
    Normal (mkParsed (mkFilter default_state (Some (Some (lit "Core team")))
                        None None) false None) /\
  parseQuery (lit "label" ++ colon :: quoted (lit "Core team")) =
    Normal (mkParsed (mkFilter default_state None
                        (Some (Some (lit "Core team"))) None) false None).
Proof.
  apply (parseQuery_quoted_value (lit "Core team")).
  - discriminate.
  - reflexivity.
  - reflexivity.
  - reflexivity.
Defined.


(** X16.  The five words in any letter case: [no], [urgent], [medium] and
    [low] give the equality with 0, 1, 3 and 4, [high] gives the set of
    1 and 2. *)
Theorem priority_words_any_case (s w : jsstring) (f : priority_filter) :
  toLowerCase s = w ->
  In (w, f) [(lit "no", PEq (VNumber 0)); (lit "urgent", PEq (VNumber 1));
             (lit "high", PIn [1; 2]); (lit "medium", PEq (VNumber 3));
             (lit "low", PEq (VNumber 4))] ->
  parsePriorityFilter (Some s) = Normal (Some f).
Proof.
  intros Hs Hin. cbn [In] in Hin.
  destruct Hin as [H|[H|[H|[H|[H|[]]]]]]; injection H as <- <-.
  - now apply priority_word_no.
  - now apply priority_word_urgent.
  - now apply priority_word_high.
  - now apply priority_word_medium.
  - now apply priority_word_low.
Qed.

Lemma priority_words_any_case_witness :
  parsePriorityFilter (Some (lit "UrGent")) = Normal (Some (PEq (VNumber 1))).
Proof.
  apply (priority_words_any_case (lit "UrGent") (lit "urgent") (PEq (VNumber 1))).
  - reflexivity.
  - cbn. right. left. reflexivity.
Defined.

Lemma digit_not_space c : is_digit c = true -> is_space c = false.
Proof.
  unfold is_digit, in_range, is_space. intro H.
  apply andb_true_iff in H. destruct H as [A B].
  apply N.leb_le in A, B.
  apply orb_false_iff. split.
  - cbn [existsb].
    repeat match goal with
    | |- (N.eqb c ?k || _) = false =>
        apply orb_false_iff; split; [apply N.eqb_neq; lia|]
    end. reflexivity.
  - apply andb_false_iff. left. apply N.leb_gt. lia.
Qed.

Lemma span_digits_all s : forallb is_digit s = true -> span_digits s = (s, []).
Proof.
  induction s as [|c s IH]; cbn [forallb span_digits]; [reflexivity|].
  intro H. apply andb_true_iff in H. destruct H as [Hc Hs].
  now rewrite Hc, (IH Hs).
Qed.

Lemma drop_space_digit s :
  is_digit (hd 0%N s) = true -> drop_space s = s.
Proof.
  destruct s as [|c s]; [reflexivity|]. cbn [hd drop_space]. intro H.
  now rewrite (digit_not_space c H).
Qed.

Lemma drop_sign_digit s :
  is_digit (hd 0%N s) = true -> drop_sign s = s.
Proof.
  destruct s as [|c s]; [reflexivity|]. cbn [hd drop_sign].
  unfold is_digit, in_range. intro H.
  apply andb_true_iff in H. destruct H as [A B]. apply N.leb_le in A, B.
  replace (N.eqb c plus_sign) with false by (symmetry; apply N.eqb_neq; unfold plus_sign; lia).
  replace (N.eqb c minus_sign) with false by (symmetry; apply N.eqb_neq; unfold minus_sign; lia).
  reflexivity.
Qed.

Lemma digits_head s :
  s <> [] -> forallb is_digit s = true -> is_digit (hd 0%N s) = true.
Proof.
  destruct s as [|c s]; [congruence|]. cbn [forallb hd]. intros _ H.
  now apply andb_true_iff in H.
Qed.

Lemma digits_value_from acc s :
  forallb is_digit s = true -> 0 <= acc ->
  0 <= fold_left (fun a c => 10 * a + (Z.of_N c - 48)) s acc.
Proof.
  revert acc. induction s as [|c s IH]; intros acc H Hacc; [exact Hacc|].
  cbn [forallb fold_left] in *. apply andb_true_iff in H. destruct H as [Hc Hs].
  apply IH; [exact Hs|].
  unfold is_digit, in_range in Hc. apply andb_true_iff in Hc.
  destruct Hc as [A _]. apply N.leb_le in A. lia.
Qed.

(** X17.  A string of decimal digits is read by its value, leading zeros
    included: 0, 1, 3 and 4 give the equality, 2 gives the set of 1 and
    2, anything above 4 gives no filter. *)
Theorem priority_decimal_digits (s : jsstring) :
  s <> [] -> forallb is_digit s = true ->
  parsePriorityFilter (Some s) =
  Normal (if digits_value s <=? 4 then
            if digits_value s =? 2 then Some (PIn [1; 2])
            else Some (PEq (VNumber (digits_value s)))
          else None).
Proof.
  intros Hne Hd.
  pose proof (digits_head s Hne Hd) as Hh.
  assert (Hrev : forallb is_digit (rev s) = true) by now rewrite forallb_rev_eq.
  assert (Hrne : rev s <> []).
  { intro E. apply Hne. rewrite <- (rev_involutive s), E. reflexivity. }
  assert (Hnum : isNaN s = false).
  { unfold isNaN, string_is_numeric, trim.
    rewrite (drop_space_digit s Hh),
      (drop_space_digit (rev s) (digits_head _ Hrne Hrev)), rev_involutive.
    rewrite (drop_sign_digit s Hh). unfold unsigned_decimal.
    rewrite (span_digits_all s Hd).
    destruct s; [congruence|]. cbn [is_nil negb]. now rewrite !orb_true_r. }
  assert (Hint : parseInt10 s = Some (digits_value s)).
  { unfold parseInt10.
    rewrite (drop_space_digit s Hh), (drop_sign_digit s Hh),
      (span_digits_all s Hd). cbn [fst].
    destruct s as [|c s]; [congruence|]. cbn [is_nil].
    replace (N.eqb c minus_sign) with false; [reflexivity|].
    symmetry. apply N.eqb_neq. cbn [hd] in Hh.
    unfold is_digit, in_range in Hh. apply andb_true_iff in Hh.
    destruct Hh as [A _]. apply N.leb_le in A. unfold minus_sign. lia. }
  unfold parsePriorityFilter. rewrite Hnum, Hint. cbn [negb].
  pose proof (digits_value_from 0 s Hd (Z.le_refl 0)) as Hpos.
  fold (digits_value s) in Hpos.
  replace (digits_value s >=? 0) with true
    by (symmetry; rewrite Z.geb_leb; now apply Z.leb_le).
  cbn [andb]. destruct (digits_value s <=? 4); [|reflexivity].
  now destruct (digits_value s =? 2).
Qed.

Lemma priority_decimal_digits_witness :
  parsePriorityFilter (Some (lit "0003")) =
  Normal (if digits_value (lit "0003") <=? 4 then
            if digits_value (lit "0003") =? 2 then Some (PIn [1; 2])
            else Some (PEq (VNumber (digits_value (lit "0003"))))
          else None).
Proof.
  apply (priority_decimal_digits (lit "0003")).
  - discriminate.
  - reflexivity.
Defined.

Lemma priority_other_word_witness :
  parsePriorityFilter (Some (lit "Critical")) = Normal None.
Proof.
  apply (priority_other_word (lit "Critical")).
  - reflexivity.
  - cbn. intuition discriminate.
Defined.

(** X14.  The priority filter is that of the last [priority:] part whose
    value gives one: a later part whose value gives none does not erase
    it. *)
Theorem priority_last_valid query pre part post (p : priority_filter) :
  queryParts query = pre ++ part :: post ->
  ~ In (lit "priority") (queryParts query) ->
  priority_of part = Some p ->
  (forall x, In x post -> priority_of x = None) ->
  option_map priorityFilter (normal_value (parseQuery query)) = Some (Some p).
Proof.
  intros Hparts Hnp Hp Hpost.
  rewrite (parseQuery_compiled _ Hnp), Hparts. cbn.
  f_equal. now apply last_of_last.
Qed.

Lemma priority_last_valid_witness :
  option_map priorityFilter
    (normal_value (parseQuery (lit "priority:low bug priority:soon"))) =
  Some (Some (PEq (VNumber 4))).
Proof.
  apply (priority_last_valid (lit "priority:low bug priority:soon")
           [] (lit "priority:low") [lit "bug"; lit "priority:soon"]
           (PEq (VNumber 4))).
  - reflexivity.
  - cbn. intuition discriminate.
  - reflexivity.
  - intros x [<-|[<-|[]]]; reflexivity.
Defined.

(** X15.  Of several [team:] parts the last one gives the team filter. *)
Theorem team_last_wins query pre part post :
  queryParts query = pre ++ part :: post ->
  ~ In (lit "priority") (queryParts query) ->
  part_key part = lit "team" ->
  (forall x, In x post -> part_key x <> lit "team") ->
  option_map (fun r => f_team (p_filter r)) (normal_value (parseQuery query)) =
  Some (Some (part_value part)).
Proof.
  intros Hparts Hnp Hk Hpost.
  rewrite (parseQuery_compiled _ Hnp), Hparts. cbn.
  f_equal. apply last_of_last.
  - unfold team_of. now rewrite Hk.
  - intros x Hx. unfold team_of.
    destruct (str_eqb (part_key x) (lit "team")) eqn:E; [|reflexivity].
    apply str_eqb_eq in E. now apply Hpost in E.
Qed.

Lemma team_last_wins_witness :
  option_map (fun r => f_team (p_filter r))
    (normal_value (parseQuery (lit "team:Core team:Web bug"))) =
  Some (Some (part_value (lit "team:Web"))).
Proof.
  apply (team_last_wins (lit "team:Core team:Web bug")
           [lit "team:Core"] (lit "team:Web") [lit "bug"]).
  - reflexivity.
  - cbn. intuition discriminate.
  - reflexivity.
  - intros x [<-|[]]. discriminate.
Defined.

Lemma free_text_last_unhandled_witness :
  option_map (fun r => f_or (p_filter r))
    (normal_value (parseQuery (lit "fix login:page team:Core"))) =
  Some (Some [TitleContains (part_key (lit "login:page"));
              DescriptionContains (part_key (lit "login:page"))]).
Proof.
  apply (free_text_last_unhandled (lit "fix login:page team:Core")
           [lit "fix"] (lit "login:page") [lit "team:Core"]).
  - reflexivity.
  - cbn. intuition discriminate.
  - reflexivity.
  - intros x [<-|[]]. reflexivity.
Defined.

Lemma state_default_witness :
  option_map (fun r => f_state (p_filter r))
    (normal_value (parseQuery (lit "team:Core crash"))) =
  Some default_state.
Proof.
  apply (state_default (lit "team:Core crash")).
  - cbn. intuition discriminate.
  - intros x [<-|[<-|[]]]; reflexivity.
Defined.

Lemma state_explicit_witness :
  option_map (fun r => f_state (p_filter r))
    (normal_value (parseQuery (lit "state:Todo status:Done bug"))) =
  Some (mkState None (Some (part_value (lit "status:Done")))).
Proof.
  apply (state_explicit (lit "state:Todo status:Done bug")
           [lit "state:Todo"] (lit "status:Done") [lit "bug"]).
  - reflexivity.
  - cbn. intuition discriminate.
  - reflexivity.
  - intros x [<-|[]]. reflexivity.
Defined.

Lemma me_token_witness :
  option_map isMyIssuesQuery
    (normal_value (parseQuery (lit "crash assignee:@me team:Core"))) = Some true.
Proof.
  apply (me_token (lit "crash assignee:@me team:Core")).
  - cbn. right. left. reflexivity.
  - cbn. intuition discriminate.
Defined.

Lemma free_text_absent_witness :
  option_map (fun r => f_or (p_filter r))
    (normal_value (parseQuery (lit "team:Core label:bug"))) = Some None.
Proof.
  apply (free_text_absent (lit "team:Core label:bug")).
  - cbn. intuition discriminate.
  - intros x [<-|[<-|[]]]; reflexivity.
Defined.

(** *** The claims on the parser *)

(** C3.  [parseQuery] does not return on the query [priority]: the
    bare word reaches [parsePriorityFilter] with [undefined], and
    [value.toLowerCase()] throws a [TypeError]. *)
Theorem parseQuery_bare_priority_throws :
  queryParts (lit "priority") = [lit "priority"] /\
  parseQuery (lit "priority") = Throw toLowerCase_of_undefined.
Proof. split; reflexivity. Qed.

(** C4.  On the query [foo:bar], whose only fragment has a colon and a
    key outside the six handled ones, the free-text predicate is set,
    to the key [foo]. *)
Theorem parseQuery_unknown_key_sets_free_text :
  parseQuery (lit "foo:bar") =
  Normal (mkParsed
            (mkFilter default_state None None
               (Some [TitleContains (lit "foo"); DescriptionContains (lit "foo")]))
            false None).
Proof. reflexivity. Qed.

(** C5.  The value [1e1] is the number 10, outside 0..4, and still
    gives the equality filter on 1: [isNaN] accepts the whole string
    and [parseInt] reads its first digit only. *)
Theorem parsePriorityFilter_1e1 :
  parsePriorityFilter (Some (lit "1e1")) = Normal (Some (PEq (VNumber 1))) /\
  option_map priorityFilter
    (match parseQuery (lit "priority:1e1") with
     | Normal p => Some p
     | Throw _ => None
     end) = Some (Some (PEq (VNumber 1))).
Proof. split; reflexivity. Qed.

(** C6.  The query [state] has no [state:] or [status:] token, only a
    bare word, and the default exclusion is gone all the same: the
    state predicate is a name equality with [undefined]. *)
Theorem parseQuery_bare_state_drops_default :
  queryParts (lit "state") = [lit "state"] /\
  parseQuery (lit "state") =
  Normal (mkParsed (mkFilter (mkState None (Some None)) None None None)
            false None).
Proof. split; reflexivity. Qed.

End QueryFacts.

Module HandlerFacts.
Import QueryFacts.

(** *** The boundary, the routing and the URI pattern *)

(** No handler throws: whatever its body does, the [catch] clause
    answers with a payload. *)
Lemma handler_returns (m : M payload) (w : World) :
  exists p w', try_catch m respond_error w = (Normal p, w').
Proof.
  unfold try_catch. destruct (m w) as [[p|e] w']; [eauto|].
  unfold respond_error, respond. eauto.
Qed.

Lemma search_issues_returns c now query w :
  exists p w', search_issues c now query w = (Normal p, w').
Proof. apply handler_returns. Qed.

Lemma read_resource_returns c uri w :
  exists p w', read_resource c uri w = (Normal p, w').
Proof. apply handler_returns. Qed.

(** X21.  The call that [search-issues] makes for the issues, when the call
    is admitted, the viewer resolves and the query compiles: on the
    my-issues path the filter alone, on the other path the filter with
    the priority filter merged in. *)
Lemma search_issues_routes c me now query w :
  fst (RateLimiter.checkLimit now (rateLimiter w)) = Normal tt ->
  viewer c = Normal me ->
  ~ In (lit "priority") (queryParts query) ->
  let p := compiled (queryParts query) in
  calls (snd (search_issues c now query w)) =
  calls w ++
  [ReqViewer;
   if isMyIssuesQuery p
   then ReqAssignedIssues me 100 updatedAt (p_filter p)
   else ReqIssues 100 (Some (with_priority (p_filter p) (priorityFilter p)))
          updatedAt false].
Proof.
  intros Hadm Hv Hnp p.
  unfold search_issues, try_catch, bind, checkLimit, upstream, eval.
  destruct (RateLimiter.checkLimit now (rateLimiter w)) as [r l].
  cbn [fst] in Hadm. subst r. cbn [rateLimiter calls].
  rewrite Hv. rewrite parseQuery_spec.
  replace (existsb is_bare_priority (queryParts query)) with false.
  2:{ symmetry. destruct (existsb is_bare_priority (queryParts query)) eqn:E;
        [|reflexivity].
      apply existsb_exists in E. destruct E as (part & Hin & Hp).
      apply str_eqb_eq in Hp. subst part. contradiction. }
  fold p. cbn [rateLimiter calls].
  destruct (isMyIssuesQuery p).
  - destruct (assignedIssues c me 100 updatedAt (p_filter p)); cbn;
      now rewrite <- app_assoc.
  - destruct (issues c 100 _ updatedAt false); cbn; now rewrite <- app_assoc.
Qed.

Lemma strip_prefix_app prefix l : strip_prefix prefix (prefix ++ l) = Some l.
Proof.
  induction prefix as [|a prefix IH]; [now destruct l|].
  cbn [app strip_prefix]. now rewrite N.eqb_refl.
Qed.

Lemma span_unslashed_all ty :
  existsb (N.eqb slash) ty = false -> span_unslashed ty = (ty, []).
Proof.
  induction ty as [|c ty IH]; cbn [existsb span_unslashed]; [reflexivity|].
  rewrite N.eqb_sym. destruct (N.eqb c slash); cbn [orb]; [discriminate|].
  intro H. now rewrite (IH H).
Qed.

Lemma span_unslashed_slash ty rest :
  existsb (N.eqb slash) ty = false ->
  span_unslashed (ty ++ slash :: rest) = (ty, slash :: rest).
Proof.
  induction ty as [|c ty IH]; cbn [existsb span_unslashed app].
  - now rewrite N.eqb_refl.
  - rewrite N.eqb_sym. destruct (N.eqb c slash); cbn [orb]; [discriminate|].
    intro H. now rewrite (IH H).
Qed.

(** A URI that ends with the resource type, or with the [/] after it,
    does not match the pattern. *)
Lemma match_uri_without_id ty :
  existsb (N.eqb slash) ty = false ->
  match_uri (lit "linear://" ++ ty) = None /\
  match_uri (lit "linear://" ++ ty ++ [slash]) = None.
Proof.
  intro H. unfold match_uri. rewrite !strip_prefix_app.
  rewrite (span_unslashed_all ty H), (span_unslashed_slash ty [] H).
  split; [reflexivity|].
  now rewrite andb_false_r.
Qed.

(** The id the pattern captures is never empty: the [else] branches of
    [if (id)] cannot run. *)
Lemma match_uri_id uri ty id :
  match_uri uri = Some (ty, id) -> id <> [].
Proof.
  unfold match_uri.
  destruct (strip_prefix _ uri) as [rest|]; [|discriminate].
  destruct (span_unslashed rest) as [t r].
  destruct r as [|c i]; [discriminate|].
  destruct i as [|c' i]; [now rewrite andb_false_r|].
  destruct (_ && _); [|discriminate].
  intro H. injection H as _ <-. discriminate.
Qed.

Lemma read_resource_needs_id c ty w :
  existsb (N.eqb slash) ty = false ->
  read_resource c (lit "linear://" ++ ty) w =
  (Normal (createResponse
             (BError (lit "Error: Invalid Linear URI format: "
                        ++ lit "linear://" ++ ty))
             (rateLimiter w)), w).
Proof.
  intro H. unfold read_resource, try_catch.
  destruct (match_uri_without_id ty H) as [-> _].
  reflexivity.
Qed.

(** *** The claims on the handlers *)

(** C7.  On the query [assignee:@me priority] the handler of
    [search-issues] answers with an error payload after the call for
    the viewer: [parseQuery] throws, no [isMyIssuesQuery] is produced
    and no issue query goes upstream. *)
Theorem search_issues_me_then_bare_priority (c : Client) (me : User)
    (now created : Z) :
  viewer c = Normal me ->
  In (lit "assignee:@me") (queryParts (lit "assignee:@me priority")) /\
  let r := search_issues c now (lit "assignee:@me priority")
             (initial_world created) in
  option_map error_of
    (match fst r with Normal p => Some p | Throw _ => None end) =
    Some (Some (lit "Error: Cannot read properties of undefined (reading 'toLowerCase')")) /\
  calls (snd r) = [ReqViewer].
Proof.
  intro Hv. split; [now left|].
  unfold search_issues, try_catch, bind, upstream, checkLimit, initial_world.
  simpl. rewrite Hv. split; reflexivity.
Qed.

Lemma search_issues_me_then_bare_priority_witness :
  In (lit "assignee:@me") (queryParts (lit "assignee:@me priority")) /\
  let r := search_issues quiet_client 5 (lit "assignee:@me priority")
             (initial_world 0) in
  option_map error_of
    (match fst r with Normal p => Some p | Throw _ => None end) =
    Some (Some (lit "Error: Cannot read properties of undefined (reading 'toLowerCase')")) /\
  calls (snd r) = [ReqViewer].
Proof.
  apply (search_issues_me_then_bare_priority quiet_client
           (mkUser (lit "me")) 5 0).
  reflexivity.
Defined.

(** C8.  The URIs [linear://issues], [linear://organization] and
    [linear://teams], which name a resource type and no id, are
    refused: the pattern wants a [/] and an id, the handler answers
    with the error payload for an invalid URI and makes no call
    upstream. *)
Theorem read_resource_without_id (c : Client) (w : World) :
  read_resource c (lit "linear://issues") w =
    (Normal (createResponse
               (BError (lit "Error: Invalid Linear URI format: linear://issues"))
               (rateLimiter w)), w) /\
  read_resource c (lit "linear://organization") w =
    (Normal (createResponse
               (BError (lit "Error: Invalid Linear URI format: linear://organization"))
               (rateLimiter w)), w) /\
  read_resource c (lit "linear://teams") w =
    (Normal (createResponse
               (BError (lit "Error: Invalid Linear URI format: linear://teams"))
               (rateLimiter w)), w).
Proof. repeat split. Qed.

(** The pattern on [linear://issues/<id>]. *)
Lemma match_uri_issue (id : jsstring) :
  id <> [] ->
  forallb (fun c => negb (is_line_terminator c)) id = true ->
  match_uri (lit "linear://issues/" ++ id) = Some (lit "issues", id).
Proof.
  intros Hne Hlt. unfold match_uri. simpl.
  destruct id as [|c id]; [congruence|].
  rewrite Hlt. reflexivity.
Qed.

(** C9, as the code has it.  For a URI [linear://issues/<id>] whose
    id is not empty and has no line terminator, when the upstream
    client resolves the id to no issue, the handler returns (nothing
    is thrown past it) the payload whose [error] is
    [Error: Issue not found: <id>]: [handleLinearError] puts [Error: ]
    before the message of the exception. *)
Theorem read_resource_issue_not_found (c : Client) (id : jsstring) (w : World) :
  id <> [] ->
  forallb (fun ch => negb (is_line_terminator ch)) id = true ->
  issue c id = Normal None ->
  read_resource c (lit "linear://issues/" ++ id) w =
    (Normal (createResponse
               (BError (lit "Error: Issue not found: " ++ id))
               (rateLimiter w)),
     mkWorld (rateLimiter w) (calls w ++ [ReqIssue id])).
Proof.
  intros Hne Hlt Hnone.
  unfold read_resource, try_catch.
  rewrite (match_uri_issue id Hne Hlt).
  destruct id as [|ch id]; [congruence|].
  simpl. unfold bind, upstream. rewrite Hnone. reflexivity.
Qed.

Lemma read_resource_issue_not_found_witness :
  read_resource quiet_client (lit "linear://issues/" ++ lit "abc")
    (initial_world 0) =
    (Normal (createResponse
               (BError (lit "Error: Issue not found: " ++ lit "abc"))
               (rateLimiter (initial_world 0))),
     mkWorld (rateLimiter (initial_world 0))
       (calls (initial_world 0) ++ [ReqIssue (lit "abc")])).
Proof.
  apply (read_resource_issue_not_found quiet_client (lit "abc")
           (initial_world 0)).
  - discriminate.
  - reflexivity.
  - reflexivity.
Defined.

(** C9 as stated fails: for the id [abc], which the client resolves to
    no issue, the [error] of the payload is not [Issue not found: abc]. *)
Lemma read_resource_issue_not_found_exact_message_fails :
  issue quiet_client (lit "abc") = Normal None /\
  ~ (exists p w',
       read_resource quiet_client (lit "linear://issues/abc") (initial_world 0)
         = (Normal p, w') /\
       error_of p = Some (lit "Issue not found: abc")).
Proof.
  split; [reflexivity|].
  intros (p & w' & Hrun & Herr).
  vm_compute in Hrun. inversion Hrun; subst p.
  vm_compute in Herr. discriminate.
Qed.

(** *** More on the handlers *)

(** X19.  A rejected call ends the handler at once: the payload is the error
    of the limiter, nothing is asked upstream and the query is not
    looked at. *)
Theorem search_issues_rate_limited (c : Client) (now : Z) (query : jsstring)
    (w : World) :
  RateLimiter.requestsPerHour (rateLimiter w)
    <= RateLimiter.recent now (rateLimiter w) ->
  let r := search_issues c now query w in
  option_map error_of (normal_value (fst r)) =
    Some (Some (lit "Error: Rate limit exceeded")) /\
  calls (snd r) = calls w.
Proof.
  intros Hfull r.
  pose proof (RateLimiterFacts.checkLimit_cases now (rateLimiter w)) as H.
  cbv zeta in H. apply Z.leb_le in Hfull. rewrite Hfull in H.
  destruct H as (Hthrow & _ & _).
  unfold r, search_issues, try_catch, bind, checkLimit.
  destruct (RateLimiter.checkLimit now (rateLimiter w)) as [o l].
  cbn [fst] in Hthrow. subst o. split; reflexivity.
Qed.

Lemma search_issues_rate_limited_witness :
  let w := mkWorld (fst (RateLimiter.run (RateLimiter.constructor 0)
                           (map Z.of_nat (seq 0 1000)))) [] in
  let r := search_issues quiet_client 1000 (lit "bug") w in
  option_map error_of (normal_value (fst r)) =
    Some (Some (lit "Error: Rate limit exceeded")) /\
  calls (snd r) = calls w.
Proof.
  apply (search_issues_rate_limited quiet_client 1000 (lit "bug")
           (mkWorld (fst (RateLimiter.run (RateLimiter.constructor 0)
                            (map Z.of_nat (seq 0 1000)))) [])).
  apply Z.leb_le. vm_compute. reflexivity.
Defined.

(** X20.  When the lookup of the viewer fails, whatever the exception, the
    payload is the fixed message about the current user; the query is
    not looked at and no issue is asked for. *)
Theorem search_issues_viewer_failure (c : Client) (now : Z) (query : jsstring)
    (w : World) (e : exn) :
  fst (RateLimiter.checkLimit now (rateLimiter w)) = Normal tt ->
  viewer c = Throw e ->
  let r := search_issues c now query w in
  option_map error_of (normal_value (fst r)) =
    Some (Some (lit "Error: Failed to get current user information")) /\
  calls (snd r) = calls w ++ [ReqViewer].
Proof.
  intros Hadm Hv r.
  unfold r, search_issues, try_catch, bind, checkLimit, upstream.
  destruct (RateLimiter.checkLimit now (rateLimiter w)) as [o l].
  cbn [fst] in Hadm. subst o. cbn [rateLimiter calls].
  rewrite Hv. split; reflexivity.
Qed.

Lemma search_issues_viewer_failure_witness :
  let c := mkClient (Throw (LinearError (lit "401"))) (assignedIssues quiet_client)
             (issues quiet_client) (issue quiet_client) (organization quiet_client)
             (team quiet_client) (teams quiet_client) (states quiet_client) in
  let r := search_issues c 5 (lit "priority") (initial_world 0) in
  option_map error_of (normal_value (fst r)) =
    Some (Some (lit "Error: Failed to get current user information")) /\
  calls (snd r) = calls (initial_world 0) ++ [ReqViewer].
Proof.
  apply (search_issues_viewer_failure
           (mkClient (Throw (LinearError (lit "401"))) (assignedIssues quiet_client)
              (issues quiet_client) (issue quiet_client) (organization quiet_client)
              (team quiet_client) (teams quiet_client) (states quiet_client))
           5 (lit "priority") (initial_world 0) (LinearError (lit "401"))).
  - reflexivity.
  - reflexivity.
Defined.

Lemma search_issues_routes_witness :
  let p := compiled (queryParts (lit "assignee:@me priority:high")) in
  calls (snd (search_issues quiet_client 5 (lit "assignee:@me priority:high")
                (initial_world 0))) =
  calls (initial_world 0) ++
  [ReqViewer;
   if isMyIssuesQuery p
   then ReqAssignedIssues (mkUser (lit "me")) 100 updatedAt (p_filter p)
   else ReqIssues 100 (Some (with_priority (p_filter p) (priorityFilter p)))
          updatedAt false].
Proof.
  apply (search_issues_routes quiet_client (mkUser (lit "me")) 5
           (lit "assignee:@me priority:high") (initial_world 0)).
  - reflexivity.
  - reflexivity.
  - cbn. intuition discriminate.
Defined.


Lemma span_unslashed_spec l ty r :
  span_unslashed l = (ty, r) ->
  l = ty ++ r /\ existsb (N.eqb slash) ty = false /\
  (r = [] \/ exists r', r = slash :: r').
Proof.
  revert ty r. induction l as [|c l IH]; intros ty r; cbn [span_unslashed].
  - intro H. injection H as <- <-. auto.
  - destruct (N.eqb c slash) eqn:E.
    + intro H. injection H as <- <-. apply N.eqb_eq in E. subst c.
      repeat split. right. eauto.
    + destruct (span_unslashed l) as [a r0]. intro H. injection H as <- <-.
      destruct (IH a r0 eq_refl) as (-> & Ha & Hr).
      repeat split; [|exact Hr].
      cbn [existsb]. now rewrite N.eqb_sym, E, Ha.
Qed.

Lemma strip_prefix_spec prefix l rest :
  strip_prefix prefix l = Some rest -> l = prefix ++ rest.
Proof.
  revert l. induction prefix as [|a prefix IH]; intros l; cbn [strip_prefix].
  - destruct l; intro H; now injection H as <-.
  - destruct l as [|b l]; [discriminate|].
    destruct (N.eqb a b) eqn:E; [|discriminate].
    apply N.eqb_eq in E. subst b. intro H. cbn [app]. f_equal. now apply IH.
Qed.

Lemma match_uri_inv (uri resourceType id : jsstring) :
  match_uri uri = Some (resourceType, id) ->
  uri = lit "linear://" ++ resourceType ++ slash :: id /\
  resourceType <> [] /\ existsb (N.eqb slash) resourceType = false /\
  id <> [] /\ forallb (fun c => negb (is_line_terminator c)) id = true.
Proof.
  unfold match_uri.
  destruct (strip_prefix (lit "linear://") uri) as [rest|] eqn:Ep; [|discriminate].
  apply strip_prefix_spec in Ep.
  destruct (span_unslashed rest) as [ty r] eqn:Es.
  apply span_unslashed_spec in Es. destruct Es as (-> & Hty & Hr).
  destruct r as [|c i]; [discriminate|].
  destruct Hr as [Hr|[r' Hr]]; [discriminate|]. injection Hr as -> ->.
  destruct (negb (is_nil ty) && negb (is_nil r') && _) eqn:E; [|discriminate].
  intro H. injection H as <- <-.
  apply andb_true_iff in E. destruct E as [E Hlt].
  apply andb_true_iff in E. destruct E as [E1 E2].
  repeat split; auto.
  - destruct ty; [discriminate E1|discriminate].
  - destruct r'; [discriminate E2|discriminate].
Qed.

Lemma match_uri_build (resourceType id : jsstring) :
  resourceType <> [] -> existsb (N.eqb slash) resourceType = false ->
  id <> [] -> forallb (fun c => negb (is_line_terminator c)) id = true ->
  match_uri (lit "linear://" ++ resourceType ++ slash :: id) =
  Some (resourceType, id).
Proof.
  intros Hty Hs Hid Hlt.
  unfold match_uri. rewrite strip_prefix_app.
  pose proof (span_unslashed_slash resourceType id Hs) as Hspan.
  unfold jsstring, code_unit in *. rewrite Hspan, Hlt.
  destruct resourceType; [congruence|]. destruct id; [congruence|].
  reflexivity.
Qed.

(** X23.  The pattern of the URI, read both ways: it matches exactly the
    strings [linear://<type>/<id>] whose type is not empty and has no
    [/], and whose id is not empty and has no line terminator, and it
    captures that type and that id. *)
Theorem match_uri_iff (uri resourceType id : jsstring) :
  match_uri uri = Some (resourceType, id) <->
  uri = lit "linear://" ++ resourceType ++ slash :: id /\
  resourceType <> [] /\ existsb (N.eqb slash) resourceType = false /\
  id <> [] /\ forallb (fun c => negb (is_line_terminator c)) id = true.
Proof.
  split.
  - apply match_uri_inv.
  - intros (-> & Hty & Hs & Hid & Hlt). now apply match_uri_build.
Qed.

(** X24.  What [read-resource] does besides answering: it never touches the
    limiter (the tool is not rate limited), and upstream it asks for one
    issue, for the organization, or for one team and then its states;
    it never lists issues or teams. *)
Theorem read_resource_effects (c : Client) (uri : jsstring) (w : World) :
  let w' := snd (read_resource c uri w) in
  rateLimiter w' = rateLimiter w /\
  exists l, calls w' = calls w ++ l /\
    (l = [] \/ (exists id, l = [ReqIssue id]) \/ l = [ReqOrganization] \/
     (exists id, l = [ReqTeam id]) \/
     (exists id t, l = [ReqTeam id; ReqStates t])).
Proof.
  cbv zeta. unfold read_resource, try_catch.
  destruct (match_uri uri) as [[ty id]|] eqn:Em.
  2:{ cbn. split; [reflexivity|]. exists []. rewrite app_nil_r. auto. }
  apply match_uri_id in Em.
  destruct id as [|ch id]; [congruence|]. cbn [is_nil negb].
  unfold bind, upstream, respond_error, respond, throw, team_with_states, ret.
  destruct (str_eqb ty (lit "issues")).
  { destruct (issue c (ch :: id)) as [[i|]|e]; cbn [rateLimiter calls fst snd];
      (split; [reflexivity|]); exists [ReqIssue (ch :: id)]; eauto 7. }
  destruct (str_eqb ty (lit "organization")).
  { destruct (organization c); cbn [rateLimiter calls fst snd];
      (split; [reflexivity|]); exists [ReqOrganization]; auto 7. }
  destruct (str_eqb ty (lit "teams")).
  { destruct (team c (ch :: id)) as [t|e]; cbn [rateLimiter calls fst snd].
    - unfold bind, upstream. cbn [rateLimiter calls].
      destruct (states c t); cbn [rateLimiter calls fst snd];
        (split; [reflexivity|]); exists [ReqTeam (ch :: id); ReqStates t];
        rewrite <- app_assoc; eauto 9.
    - split; [reflexivity|]. exists [ReqTeam (ch :: id)]. eauto 7. }
  cbn. split; [reflexivity|]. exists []. rewrite app_nil_r. auto.
Qed.

(** X25.  A URI of the right shape with a resource type other than [issues],
    [organization] and [teams] is answered with the error that names
    the type, and nothing is asked upstream. *)
Theorem read_resource_unknown_type (c : Client) (uri resourceType id : jsstring)
    (w : World) :
  match_uri uri = Some (resourceType, id) ->
  ~ In resourceType [lit "issues"; lit "organization"; lit "teams"] ->
  read_resource c uri w =
  (Normal (createResponse
             (BError (lit "Error: Unknown resource type: " ++ resourceType))
             (rateLimiter w)), w).
Proof.
  intros Hm Hty. unfold read_resource, try_catch. rewrite Hm.
  cbn [In] in Hty.
  repeat match goal with
  | |- context [str_eqb resourceType ?k] =>
      let E := fresh "E" in
      destruct (str_eqb resourceType k) eqn:E;
        [apply str_eqb_eq in E; exfalso; apply Hty; rewrite E; auto|]
  end.
  reflexivity.
Qed.

Lemma read_resource_unknown_type_witness :
  read_resource quiet_client (lit "linear://projects/42") (initial_world 0) =
  (Normal (createResponse
             (BError (lit "Error: Unknown resource type: " ++ lit "projects"))
             (rateLimiter (initial_world 0))), initial_world 0).
Proof.
  apply (read_resource_unknown_type quiet_client (lit "linear://projects/42")
           (lit "projects") (lit "42") (initial_world 0)).
  - reflexivity.
  - cbn. intuition discriminate.
Defined.

(** X26.  A failure of the upstream client that is a [LinearError] comes back
    as the payload [Linear API Error: <message>]; here for the lookup
    of an issue. *)
Theorem read_resource_linear_error (c : Client) (id message : jsstring)
    (w : World) :
  id <> [] ->
  forallb (fun ch => negb (is_line_terminator ch)) id = true ->
  issue c id = Throw (LinearError message) ->
  read_resource c (lit "linear://issues/" ++ id) w =
  (Normal (createResponse (BError (lit "Linear API Error: " ++ message))
             (rateLimiter w)),
   mkWorld (rateLimiter w) (calls w ++ [ReqIssue id])).
Proof.
  intros Hne Hlt He. unfold read_resource, try_catch.
  rewrite (match_uri_issue id Hne Hlt).
  destruct id as [|ch id]; [congruence|].
  cbn [is_nil negb]. change (str_eqb (lit "issues") (lit "issues")) with true.
  cbv iota. unfold bind, upstream. rewrite He. reflexivity.
Qed.

Lemma read_resource_linear_error_witness :
  let c := mkClient (viewer quiet_client) (assignedIssues quiet_client)
             (issues quiet_client) (fun _ => Throw (LinearError (lit "Entity not found")))
             (organization quiet_client) (team quiet_client) (teams quiet_client)
             (states quiet_client) in
  read_resource c (lit "linear://issues/" ++ lit "abc") (initial_world 0) =
  (Normal (createResponse
             (BError (lit "Linear API Error: " ++ lit "Entity not found"))
             (rateLimiter (initial_world 0))),
   mkWorld (rateLimiter (initial_world 0))
     (calls (initial_world 0) ++ [ReqIssue (lit "abc")])).
Proof.
  apply (read_resource_linear_error
           (mkClient (viewer quiet_client) (assignedIssues quiet_client)
              (issues quiet_client)
              (fun _ => Throw (LinearError (lit "Entity not found")))
              (organization quiet_client) (team quiet_client)
              (teams quiet_client) (states quiet_client))
           (lit "abc") (lit "Entity not found") (initial_world 0)).
  - discriminate.
  - reflexivity.
  - reflexivity.
Defined.

(** X27.  For the organization the id is required by the pattern and then
    ignored: whatever the id, the one organization is asked for and
    returned. *)
Theorem read_resource_organization (c : Client) (id : jsstring)
    (org : Organization) (w : World) :
  id <> [] ->
  forallb (fun ch => negb (is_line_terminator ch)) id = true ->
  organization c = Normal org ->
  read_resource c (lit "linear://organization/" ++ id) w =
  (Normal (createResponse (BData (DOrganization org)) (rateLimiter w)),
   mkWorld (rateLimiter w) (calls w ++ [ReqOrganization])).
Proof.
  intros Hne Hlt Ho. unfold read_resource, try_catch.
  assert (Hm : match_uri (lit "linear://organization/" ++ id) =
               Some (lit "organization", id)).
  { apply (match_uri_build (lit "organization") id); auto. discriminate. }
  rewrite Hm.
  change (str_eqb (lit "organization") (lit "issues")) with false.
  change (str_eqb (lit "organization") (lit "organization")) with true.
  cbv iota. unfold bind, upstream. rewrite Ho. reflexivity.
Qed.

Lemma read_resource_organization_witness :
  read_resource quiet_client (lit "linear://organization/" ++ lit "x") (initial_world 0) =
  (Normal (createResponse
             (BData (DOrganization
                       (mkOrganization (lit "o") (lit "Org") (lit "org") (lit "2024"))))
             (rateLimiter (initial_world 0))),
   mkWorld (rateLimiter (initial_world 0))
     (calls (initial_world 0) ++ [ReqOrganization])).
Proof.
  apply (read_resource_organization quiet_client (lit "x")
           (mkOrganization (lit "o") (lit "Org") (lit "org") (lit "2024"))
           (initial_world 0)).
  - discriminate.
  - reflexivity.
  - reflexivity.
Defined.

Lemma map_mapState states : map mapState states = states.
Proof.
  induction states as [|[i n t] states IH]; [reflexivity|].
  cbn [map]. now rewrite IH.
Qed.

(** X28.  A team is returned with the states of the second call, in their
    order and unchanged by the two mappings they go through. *)
Theorem read_resource_team (c : Client) (id : jsstring) (t : Team)
    (ss : list State) (w : World) :
  id <> [] ->
  forallb (fun ch => negb (is_line_terminator ch)) id = true ->
  team c id = Normal t ->
  states c t = Normal ss ->
  read_resource c (lit "linear://teams/" ++ id) w =
  (Normal (createResponse
             (BData (DTeam (mkMappedTeam (t_id t) (t_name t) (t_key t)
                              (t_description t) ss)))
             (rateLimiter w)),
   mkWorld (rateLimiter w) (calls w ++ [ReqTeam id; ReqStates t])).
Proof.
  intros Hne Hlt Ht Hs. unfold read_resource, try_catch.
  assert (Hm : match_uri (lit "linear://teams/" ++ id) = Some (lit "teams", id)).
  { apply (match_uri_build (lit "teams") id); auto. discriminate. }
  rewrite Hm.
  change (str_eqb (lit "teams") (lit "issues")) with false.
  change (str_eqb (lit "teams") (lit "organization")) with false.
  change (str_eqb (lit "teams") (lit "teams")) with true.
  cbv iota. destruct id as [|ch id]; [congruence|]. cbn [is_nil negb].
  unfold bind, upstream, team_with_states, ret, respond. rewrite Ht.
  unfold bind, upstream. cbn [rateLimiter calls]. rewrite Hs.
  cbn [rateLimiter calls]. unfold mapTeam. rewrite !map_mapState.
  now rewrite <- app_assoc.
Qed.

Lemma read_resource_team_witness :
  read_resource quiet_client (lit "linear://teams/" ++ lit "t1") (initial_world 0) =
  (Normal (createResponse
             (BData (DTeam (mkMappedTeam (lit "t1") (lit "Team") (lit "T") None [])))
             (rateLimiter (initial_world 0))),
   mkWorld (rateLimiter (initial_world 0))
     (calls (initial_world 0) ++
      [ReqTeam (lit "t1");
       ReqStates (mkTeam (lit "t1") (lit "Team") (lit "T") None)])).
Proof.
  apply (read_resource_team quiet_client (lit "t1")
           (mkTeam (lit "t1") (lit "Team") (lit "T") None) [] (initial_world 0)).
  - discriminate.
  - reflexivity.
  - reflexivity.
  - reflexivity.
Defined.

(** X29.  [mapIssue] gives a priority label exactly when the priority is
    absent or one of 0..4; an absent priority reads as priority 0, and
    the labels of an issue are always a list. *)
Theorem mapIssue_priority (i : Issue) :
  (m_priority (mapIssue i) = None <->
   exists n, i_priority i = Some n /\ (n < 0 \/ 4 < n)) /\
  (i_priority i = None -> m_priority (mapIssue i) = Some (lit "No priority")) /\
  (i_labels i = None -> m_labels (mapIssue i) = []).
Proof.
  unfold mapIssue. cbn [m_priority m_labels]. unfold priority_label.
  repeat split.
  - destruct (i_priority i) as [n|]; [|discriminate].
    intro H. exists n. split; [reflexivity|].
    destruct (n <? 0) eqn:E; [apply Z.ltb_lt in E; lia|].
    apply Z.ltb_ge in E. apply nth_error_None in H.
    cbn [PRIORITY_LABELS map length] in H. lia.
  - intros (n & -> & Hn).
    destruct (n <? 0) eqn:E; [reflexivity|].
    apply Z.ltb_ge in E. apply nth_error_None.
    cbn [PRIORITY_LABELS map length]. lia.
  - intros ->. reflexivity.
  - intros ->. reflexivity.
Qed.

End HandlerFacts.
